(** * Hybrid temporal search (utils/temporalSearch.js)

    A shallow embedding of the five functions of the temporal search module
    ([extractYearFromQuery], [calculateTemporalProximity], [filterByYear],
    [applyTemporalWeighting], [performHybridSearch]) and the properties the
    specification states about them.

    Modelling conventions.
    - A JavaScript string is its sequence of UTF-16 code units ([list N]).
    - Years and counts are integers ([Z], [nat]).
    - Scores and weights are JavaScript numbers.  For the structure and the
      order of the results they are idealised as exact rationals ([Q]);
      where the value itself matters (the decay and the range of the
      blend), module [Binary64] computes on doubles, every operation
      rounded.
    - The three regular expressions are values of a small regex syntax,
      run by a backtracking matcher with the leftmost-first semantics of
      the language.
    - Objects and arrays have identity: the second half of the file runs the
      same functions over a store of chunk records and arrays.

    The code around the module is embedded after it: the steps of the chat
    endpoint that feed the search and read its result (pages/api/chat.js),
    the two uploaders that index the chunks (pages/api/QdrantUploader.js,
    pages/api/QDrantUploader.js) and the year given to a listed document
    (pages/documents.astro). *)

From Stdlib Require Import ZArith QArith Qpower Qround List Bool Lia String Ascii.
From Stdlib Require Import Sorted Permutation Lqa.
From stdpp Require Import base option list gmap strings.

Import ListNotations.
Local Open Scope Z_scope.

(** ** Strings as UTF-16 code units *)

Module JsString.

Definition codeUnit := N.
Definition jsstring := list codeUnit.

(** The code units of an ASCII literal. *)
Fixpoint ofString (s : string) : jsstring :=
  match s with
  | EmptyString => []
  | String c s' => N_of_ascii c :: ofString s'
  end.

(** [\d]: the ten ASCII digits, whatever the flags. *)
Definition isDigit (c : codeUnit) : bool :=
  ((48 <=? c) && (c <=? 57))%N.

(** [\s]: the WhiteSpace and LineTerminator code points. *)
Definition isSpace (c : codeUnit) : bool :=
  ((9 <=? c) && (c <=? 13) || (c =? 32) || (c =? 160) || (c =? 5760)
   || (8192 <=? c) && (c <=? 8202) || (c =? 8232) || (c =? 8233)
   || (c =? 8239) || (c =? 8287) || (c =? 12288) || (c =? 65279))%N.

(** Upper-case partner of a pattern character under the [i] flag (without
    [u]): the ASCII letters and e-acute, the only letters the patterns use.
    No other code unit canonicalises to one of these. *)
Definition upper (c : codeUnit) : codeUnit :=
  (if (97 <=? c) && (c <=? 122) then c - 32
   else if c =? 233 then 201 else c)%N.

(** A pattern character [p] (written in lower case) against an input code
    unit, ignoring case. *)
Definition eqIgnoreCase (p c : codeUnit) : bool :=
  ((c =? p) || (c =? upper p))%N.

(** Value of a digit, and [parseInt] on a string: the longest prefix of
    decimal digits, or nothing ([NaN]) when the string starts otherwise. *)
Definition digitVal (c : codeUnit) : Z := Z.of_N c - 48.

Fixpoint parseDigits (acc : Z) (s : jsstring) : Z :=
  match s with
  | c :: s' => if isDigit c then parseDigits (10 * acc + digitVal c) s' else acc
  | [] => acc
  end.

Definition parseInt (s : jsstring) : option Z :=
  match s with
  | c :: _ => if isDigit c then Some (parseDigits 0 s) else None
  | [] => None
  end.

End JsString.

Import JsString.

(** ** Regular expressions *)

Module Regex.

(** The fragment of the regex syntax the module uses. *)
Inductive regex : Type :=
| Lit (s : jsstring)                    (* a literal, case-insensitive *)
| Seq (r1 r2 : regex)
| Alt (r1 r2 : regex)                   (* r1|r2, r1 tried first *)
| Plus (p : codeUnit -> bool)           (* class+, greedy *)
| Times (n : nat) (p : codeUnit -> bool). (* class{n} *)

Fixpoint matchLit (p s : jsstring) : option jsstring :=
  match p, s with
  | [], _ => Some s
  | a :: p', c :: s' => if eqIgnoreCase a c then matchLit p' s' else None
  | _ :: _, [] => None
  end.

Fixpoint matchTimes (n : nat) (p : codeUnit -> bool) (s : jsstring)
  : option jsstring :=
  match n, s with
  | O, _ => Some s
  | S n', c :: s' => if p c then matchTimes n' p s' else None
  | S _, [] => None
  end.

(** Greedy [class+] followed by the continuation [k]: take as many code
    units as possible, give back one at a time while [k] fails. *)
Fixpoint matchPlus {A} (p : codeUnit -> bool) (s : jsstring)
    (k : jsstring -> option A) : option A :=
  match s with
  | c :: s' =>
      if p c then
        match matchPlus p s' k with
        | Some r => Some r
        | None => k s'
        end
      else None
  | [] => None
  end.

(** Backtracking matcher anchored at the head of [s]; [k] is what remains
    of the pattern and receives the unread input. *)
Fixpoint matchAt {A} (r : regex) (s : jsstring)
    (k : jsstring -> option A) : option A :=
  match r with
  | Lit l => match matchLit l s with Some s' => k s' | None => None end
  | Seq r1 r2 => matchAt r1 s (fun s' => matchAt r2 s' k)
  | Alt r1 r2 =>
      match matchAt r1 s k with
      | Some x => Some x
      | None => matchAt r2 s k
      end
  | Plus p => matchPlus p s k
  | Times n p => match matchTimes n p s with Some s' => k s' | None => None end
  end.

(** The text of the leftmost match of [r] in [s]. *)
Fixpoint firstMatch (r : regex) (s : jsstring) : option jsstring :=
  match matchAt r s Some with
  | Some rest => Some (firstn (length s - length rest) s)
  | None =>
      match s with
      | [] => None
      | _ :: s' => firstMatch r s'
      end
  end.

End Regex.

Import Regex.

(** ** extractYearFromQuery *)

Definition lit (s : string) : regex := Lit (ofString s).

(** [/(\d{4})/g] *)
Definition fourDigits : regex := Times 4 isDigit.

(** The cue word "année", with its e-acute as code unit 233. *)
Definition annee : jsstring := ofString "ann" ++ [233%N] ++ ofString "e".

(** [/(?:en|de|du|pour l'|pour|année|exercice)\s+(\d{4})/gi] *)
Definition cuePattern : regex :=
  Seq (Alt (lit "en") (Alt (lit "de") (Alt (lit "du") (Alt (lit "pour l'")
        (Alt (lit "pour") (Alt (Lit annee) (lit "exercice")))))))
      (Seq (Plus isSpace) (Times 4 isDigit)).

(** [/(?:l'|le|la)\s+(\d{4})/gi] *)
Definition articlePattern : regex :=
  Seq (Alt (lit "l'") (Alt (lit "le") (lit "la")))
      (Seq (Plus isSpace) (Times 4 isDigit)).

Definition yearPatterns : list regex :=
  [fourDigits; cuePattern; articlePattern].

(** One turn of the loop body: [matches[0]] of [query.match(pattern)], the
    four digits inside it, [parseInt], and the range test.  [None] means
    the loop goes on to the next pattern. *)
Definition tryPattern (pattern : regex) (query : jsstring) : option Z :=
  match firstMatch pattern query with
  | Some m0 =>
      match firstMatch fourDigits m0 with
      | Some yearMatch =>
          match parseInt yearMatch with
          | Some year =>
              if (1900 <=? year) && (year <=? 2100) then Some year else None
          | None => None
          end
      | None => None
      end
  | None => None
  end.

Fixpoint firstYear (patterns : list regex) (query : jsstring) : option Z :=
  match patterns with
  | [] => None
  | pattern :: rest =>
      match tryPattern pattern query with
      | Some year => Some year
      | None => firstYear rest query
      end
  end.

(** The result is [None] for JavaScript's [null]. *)
Definition extractYearFromQuery (query : jsstring) : option Z :=
  firstYear yearPatterns query.


(** Four consecutive digits start at the head of [s]; no such run starts at
    any of the first [n] positions of [s]. *)
Definition fourDigitsAt (s : jsstring) : bool :=
  (4 <=? length s)%nat && forallb isDigit (firstn 4 s).

Fixpoint noneBefore (n : nat) (s : jsstring) : bool :=
  match n with
  | O => true
  | S n' =>
      negb (fourDigitsAt s)
      && match s with
         | [] => true
         | _ :: s' => noneBefore n' s'
         end
  end.

(** ** Chunks, options and metadata *)

(** A candidate record.  [None] stands for an absent (undefined) property.
    The last three fields are the ones weighting adds. *)
Record Chunk : Type := mkChunk {
  text : jsstring;
  score : Q;
  filename : option jsstring;
  page : option Z;
  year : option Z;
  temporalScore : option Q;
  finalScore : option Q;
  originalScore : option Q
}.

(** Truthiness of a property holding an integer or nothing: [undefined]
    and [0] are falsy. *)
Definition truthy (v : option Z) : bool :=
  match v with
  | Some n => negb (n =? 0)
  | None => false
  end.

(** The [options] argument; an absent field takes its default in the
    destructuring pattern. *)
Record Options : Type := mkOptions {
  temporalWeight : option Q;
  yearTolerance : option Z;
  enableFiltering : option bool;
  enableWeighting : option bool
}.

Definition noOptions : Options := mkOptions None None None None.

Definition temporalWeightOf (o : Options) : Q := default (3 # 10) (temporalWeight o).
Definition yearToleranceOf (o : Options) : Z := default 2 (yearTolerance o).
Definition enableFilteringOf (o : Options) : bool := default true (enableFiltering o).
Definition enableWeightingOf (o : Options) : bool := default true (enableWeighting o).

Record SearchMetadata : Type := mkSearchMetadata {
  queryYear : option Z;
  temporalFilterApplied : bool;
  temporalWeightingApplied : bool;
  originalCount : nat;
  filteredCount : nat
}.

Record SearchResult : Type := mkSearchResult {
  chunks : list Chunk;
  metadata : SearchMetadata
}.

(** ** calculateTemporalProximity *)

(** [Math.pow(0.8, yearDiff)] over exact rationals: the value before
    rounding.  [Binary64.calculateTemporalProximity] is the function on
    doubles. *)
Definition decayBase : Q := 8 # 10.

Definition calculateTemporalProximity (queryYear documentYear : Z) : Q :=
  let yearDiff := Z.abs (queryYear - documentYear) in
  Qpower decayBase yearDiff.

(** ** filterByYear *)

(** The callback of the filter.  ([tolerance] defaults to 2 when the
    argument is omitted; [performHybridSearch] always passes it.) *)
Definition keepChunk (targetYear tolerance : Z) (chunk : Chunk) : bool :=
  if negb (truthy (year chunk)) then true
  else
    let yearDiff := Z.abs (default 0 (year chunk) - targetYear) in
    yearDiff <=? tolerance.

Definition filterByYear (chunks : list Chunk) (targetYear tolerance : Z)
  : list Chunk :=
  List.filter (keepChunk targetYear tolerance) chunks.

(** ** applyTemporalWeighting *)

(** The callback of the map: the object literal built from the spread of
    [chunk].  ([temporalWeight] defaults to 0.3 when the argument is
    omitted; [performHybridSearch] always passes it.)  The blend is the
    exact one; [Binary64.weightChunk] rounds each operation. *)
Definition weightChunk (queryYear : Z) (temporalWeight : Q) (chunk : Chunk)
  : Chunk :=
  if negb (truthy (year chunk)) then
    {| text := text chunk; score := score chunk; filename := filename chunk;
       page := page chunk; year := year chunk;
       temporalScore := temporalScore chunk;
       finalScore := Some (score chunk);
       originalScore := originalScore chunk |}
  else
    let temporalScore :=
      calculateTemporalProximity queryYear (default 0 (year chunk)) in
    let finalScore :=
      ((1 - temporalWeight) * score chunk + temporalWeight * temporalScore)%Q in
    {| text := text chunk; score := score chunk; filename := filename chunk;
       page := page chunk; year := year chunk;
       temporalScore := Some temporalScore;
       finalScore := Some finalScore;
       originalScore := Some (score chunk) |}.

Definition applyTemporalWeighting (chunks : list Chunk) (queryYear : Z)
    (temporalWeight : Q) : list Chunk :=
  List.map (weightChunk queryYear temporalWeight) chunks.

(** ** Array.prototype.sort *)

Module ArraySort.
Section Sort.
Context {A : Type}.
(** The comparison function; [None] is a [NaN] result. *)
Variable comparefn : A -> A -> option Q.

(** SortCompare: [NaN] counts as [+0]; [x] goes after [y] when the
    result is positive. *)
Definition after (x y : A) : bool :=
  match comparefn x y with
  | Some v => negb (Qle_bool v 0)
  | None => false
  end.

(** The language fixes the result for a consistent comparison function:
    the stable arrangement.  Insertion from the right computes it. *)
Fixpoint insert (x : A) (l : list A) : list A :=
  match l with
  | [] => [x]
  | y :: l' => if after x y then y :: insert x l' else x :: l
  end.

Fixpoint sort (l : list A) : list A :=
  match l with
  | [] => []
  | x :: l' => insert x (sort l')
  end.
End Sort.
End ArraySort.

(** ** performHybridSearch *)

Inductive sortKey : Type := finalScoreKey | scoreKey.

(** [chunk[sortKey]]; [None] when the property is absent. *)
Definition getKey (k : sortKey) (c : Chunk) : option Q :=
  match k with
  | finalScoreKey => finalScore c
  | scoreKey => Some (score c)
  end.

(** [(a, b) => b[sortKey] - a[sortKey]] *)
Definition byKeyDescending (k : sortKey) (a b : Chunk) : option Q :=
  match getKey k b, getKey k a with
  | Some y, Some x => Some (y - x)%Q
  | _, _ => None
  end.

(** The two groups of assignments to [searchMetadata]. *)
Definition markFiltered (m : SearchMetadata) (count : nat) : SearchMetadata :=
  {| queryYear := queryYear m;
     temporalFilterApplied := true;
     temporalWeightingApplied := temporalWeightingApplied m;
     originalCount := originalCount m;
     filteredCount := count |}.

Definition markWeighted (m : SearchMetadata) : SearchMetadata :=
  {| queryYear := queryYear m;
     temporalFilterApplied := temporalFilterApplied m;
     temporalWeightingApplied := true;
     originalCount := originalCount m;
     filteredCount := filteredCount m |}.

(** The state the body threads through its steps: [processedChunks] and
    [searchMetadata]. *)
Definition searchState : Type := (list Chunk * SearchMetadata)%type.

Definition initialState (chunks : list Chunk) (queryYear : option Z)
  : searchState :=
  (chunks,
   {| queryYear := queryYear;
      temporalFilterApplied := false;
      temporalWeightingApplied := false;
      originalCount := length chunks;
      filteredCount := length chunks |}).

(** 1. Temporal filtering when a year was detected. *)
Definition filterStep (queryYear : option Z) (o : Options) (st : searchState)
  : searchState :=
  let '(processedChunks, searchMetadata) := st in
  if truthy queryYear && enableFilteringOf o then
    let processedChunks :=
      filterByYear processedChunks (default 0 queryYear) (yearToleranceOf o) in
    (processedChunks, markFiltered searchMetadata (length processedChunks))
  else st.

(** 2. Temporal weighting when a year was detected. *)
Definition weightStep (queryYear : option Z) (o : Options) (st : searchState)
  : searchState :=
  let '(processedChunks, searchMetadata) := st in
  if truthy queryYear && enableWeightingOf o then
    (applyTemporalWeighting processedChunks (default 0 queryYear)
       (temporalWeightOf o),
     markWeighted searchMetadata)
  else st.

(** 3. The key of the final sort. *)
Definition chooseSortKey (queryYear : option Z) (o : Options) : sortKey :=
  if truthy queryYear && enableWeightingOf o then finalScoreKey else scoreKey.

(** The working set and metadata just before the sort. *)
Definition beforeSort (chunks : list Chunk) (query : jsstring) (o : Options)
  : searchState :=
  let queryYear := extractYearFromQuery query in
  weightStep queryYear o (filterStep queryYear o (initialState chunks queryYear)).

Definition performHybridSearch (chunks : list Chunk) (query : jsstring)
    (o : Options) : SearchResult :=
  let queryYear := extractYearFromQuery query in
  let '(processedChunks, searchMetadata) := beforeSort chunks query o in
  let sortKey := chooseSortKey queryYear o in
  {| chunks := ArraySort.sort (byKeyDescending sortKey) processedChunks;
     metadata := searchMetadata |}.

(** The working set after the filtering step, for the statements below. *)
Definition afterFilter (chunks : list Chunk) (query : jsstring) (o : Options)
  : list Chunk :=
  let queryYear := extractYearFromQuery query in
  fst (filterStep queryYear o (initialState chunks queryYear)).

(** Scenario data of the specification. *)
Definition plain (s : Q) (y : option Z) : Chunk :=
  mkChunk (ofString "t") s None None y None None None.


(** ** The specification's wording of the two per-chunk rules

    These follow the specification's sentences, not the source, and are
    compared with the source's functions below. *)

(** "Retain a chunk if and only if it has no year field, or
    |chunk.year - targetYear| <= tolerance." *)
Definition retainedBySpec (targetYear tolerance : Z) (chunk : Chunk) : bool :=
  match year chunk with
  | None => true
  | Some y => Z.abs (y - targetYear) <=? tolerance
  end.


(** A chunk counts as dated for the source when its year is truthy. *)
Definition dated (chunk : Chunk) : bool := truthy (year chunk).

(** Descending order of a sort key, on chunks that carry it. *)
Definition descending (k : sortKey) (a b : Chunk) : Prop :=
  match getKey k a, getKey k b with
  | Some x, Some y => (y <= x)%Q
  | _, _ => False
  end.

(** The chunks whose sort key equals [v]. *)
Definition hasKey (k : sortKey) (v : Q) (c : Chunk) : bool :=
  match getKey k c with
  | Some x => Qeq_bool x v
  | None => false
  end.

(** The chunks that carry the sort key. *)
Definition keyed (k : sortKey) (c : Chunk) : Prop := is_Some (getKey k c).

(** The two chunks of the specification's first scenarios. *)
Definition twoDated : list Chunk :=
  [plain (78 # 100) (Some 2025); plain (82 # 100) (Some 2020)].

(** * The same functions over a store

    A chunk is an object and [chunks] an array of references to objects.
    [filter] and the spread [[...chunks]] build a new array of the same
    references; [map] with a spread builds new objects; [sort] rearranges
    its array in place. *)

Module Heap.

Definition loc : Type := positive.

Record store : Type := mkStore {
  objects : gmap loc Chunk;        (* the chunk records *)
  arrays : gmap loc (list loc)     (* the arrays of references to records *)
}.

(** A computation on the store.  [None] is a dangling reference, which no
    run of the program produces. *)
Definition M (A : Type) : Type := store -> option (A * store).

Definition ret {A} (x : A) : M A := fun h => Some (x, h).

Definition bind {A B} (m : M A) (f : A -> M B) : M B :=
  fun h =>
    match m h with
    | Some (x, h') => f x h'
    | None => None
    end.

Notation "x <- m ;; k" := (bind m (fun x => k))
  (at level 100, m at next level, right associativity).
Notation "m ;; k" := (bind m (fun _ => k))
  (at level 100, right associativity).

(** An object literal, an array literal: a reference nothing else holds. *)
Definition newObject (c : Chunk) : M loc :=
  fun h =>
    let l := fresh (dom (objects h)) in
    Some (l, mkStore (<[l := c]> (objects h)) (arrays h)).

Definition newArray (els : list loc) : M loc :=
  fun h =>
    let a := fresh (dom (arrays h)) in
    Some (a, mkStore (objects h) (<[a := els]> (arrays h))).

Definition getObject (l : loc) : M Chunk :=
  fun h =>
    match objects h !! l with
    | Some c => Some (c, h)
    | None => None
    end.

Definition getArray (a : loc) : M (list loc) :=
  fun h =>
    match arrays h !! a with
    | Some els => Some (els, h)
    | None => None
    end.

(** Overwrite the elements of an existing array. *)
Definition setArray (a : loc) (els : list loc) : M unit :=
  fun h =>
    match arrays h !! a with
    | Some _ => Some (tt, mkStore (objects h) (<[a := els]> (arrays h)))
    | None => None
    end.

Fixpoint mapM {A B} (f : A -> M B) (l : list A) : M (list B) :=
  match l with
  | [] => ret []
  | x :: l' => y <- f x ;; ys <- mapM f l' ;; ret (y :: ys)
  end.

Fixpoint filterM {A} (f : A -> M bool) (l : list A) : M (list A) :=
  match l with
  | [] => ret []
  | x :: l' =>
      b <- f x ;; ys <- filterM f l' ;; ret (if b then x :: ys else ys)
  end.

(** [chunks.filter(callback)] with the callback of [filterByYear]. *)
Definition filterByYear (chunks : loc) (targetYear tolerance : Z) : M loc :=
  els <- getArray chunks ;;
  kept <- filterM (fun l =>
                     chunk <- getObject l ;;
                     ret (keepChunk targetYear tolerance chunk)) els ;;
  newArray kept.

(** [chunks.map(callback)]; each call of the callback returns an object
    literal that spreads [chunk], a new object. *)
Definition applyTemporalWeighting (chunks : loc) (queryYear : Z)
    (temporalWeight : Q) : M loc :=
  els <- getArray chunks ;;
  weighted <- mapM (fun l =>
                      chunk <- getObject l ;;
                      newObject (weightChunk queryYear temporalWeight chunk))
                els ;;
  newArray weighted.

(** [array.sort(comparefn)]: the references are rearranged in the array
    itself, compared through the records they point to. *)
Definition sortInPlace (a : loc) (comparefn : Chunk -> Chunk -> option Q)
  : M unit :=
  els <- getArray a ;;
  cs <- mapM getObject els ;;
  let sorted :=
    ArraySort.sort (fun x y => comparefn (snd x) (snd y)) (zip els cs) in
  setArray a (List.map fst sorted).

Definition arrayLength (a : loc) : M nat :=
  els <- getArray a ;; ret (length els).

Definition performHybridSearch (chunks : loc) (query : jsstring) (o : Options)
  : M (loc * SearchMetadata) :=
  let queryYear := extractYearFromQuery query in
  els <- getArray chunks ;;
  processedChunks <- newArray els ;;
  let searchMetadata :=
    {| queryYear := queryYear;
       temporalFilterApplied := false;
       temporalWeightingApplied := false;
       originalCount := length els;
       filteredCount := length els |} in
  st <-
    (if truthy queryYear && enableFilteringOf o then
       processedChunks <- filterByYear processedChunks (default 0 queryYear)
                            (yearToleranceOf o) ;;
       count <- arrayLength processedChunks ;;
       ret (processedChunks, markFiltered searchMetadata count)
     else ret (processedChunks, searchMetadata)) ;;
  let '(processedChunks, searchMetadata) := st in
  st <-
    (if truthy queryYear && enableWeightingOf o then
       processedChunks <- applyTemporalWeighting processedChunks
                            (default 0 queryYear) (temporalWeightOf o) ;;
       ret (processedChunks, markWeighted searchMetadata)
     else ret (processedChunks, searchMetadata)) ;;
  let '(processedChunks, searchMetadata) := st in
  let sortKey := chooseSortKey queryYear o in
  sortInPlace processedChunks (byKeyDescending sortKey) ;;
  ret (processedChunks, searchMetadata).

(** The array [a] of store [h] holds records with the values [cs]. *)
Definition reads (h : store) (els : list loc) (cs : list Chunk) : Prop :=
  Forall2 (fun l c => objects h !! l = Some c) els cs.

Definition holds (h : store) (a : loc) (cs : list Chunk) : Prop :=
  exists els, arrays h !! a = Some els /\ reads h els cs.

(** Every record and array of [h] is in [h'] with the same contents. *)
Definition preserved (h h' : store) : Prop :=
  objects h ⊆ objects h' /\ arrays h ⊆ arrays h'.

(** Two records that differ at most in the fields weighting adds. *)
Definition sameSource (c c' : Chunk) : Prop :=
  text c' = text c /\ filename c' = filename c /\ page c' = page c /\
  score c' = score c /\ year c' = year c.

(** The record at [l'] in [h'] is one of the incoming records [els] of [h],
    itself and unchanged, or a record [h] did not have, made from one of
    them without touching text, filename, page, score or year. *)
Definition derivedFrom (h h' : store) (els : list loc) (l' : loc) : Prop :=
  exists l c c',
    l ∈ els /\ objects h !! l = Some c /\ objects h' !! l' = Some c' /\
    sameSource c c' /\
    ((l' = l /\ c' = c) \/ objects h !! l' = None).

(** Where a returned record comes from: all new, or all incoming. *)
Definition returned (h : store) (els : list loc) (allNew : bool) (l' : loc)
  : Prop :=
  if allNew then objects h !! l' = None else l' ∈ els.

(** What is known of a working array [p] in a store [h'] reached from the
    store [h] of the call, whose argument array had the elements [els]:
    [h] is preserved, and [p] holds the values [ws] in records derived from
    the incoming ones. *)
Definition tracked (h : store) (els : list loc) (allNew : bool)
    (p : loc) (h' : store) (ws : list Chunk) : Prop :=
  preserved h h' /\
  exists els',
    arrays h' !! p = Some els' /\ reads h' els' ws /\
    Forall (derivedFrom h h' els) els' /\
    Forall (returned h els allNew) els'.

(** A store with two records and the array of both. *)
Definition twoChunks : store :=
  mkStore (<[2%positive := plain (82 # 100) (Some 2024)]>
             (<[1%positive := plain (78 # 100) (Some 2025)]> ∅))
          (<[1%positive := [1%positive; 2%positive]]> ∅).

End Heap.

(** The values the array of [Heap.twoChunks] holds. *)
Definition twoChunkValues : list Chunk :=
  [plain (78 # 100) (Some 2025); plain (82 # 100) (Some 2024)].

(** ** Double precision (binary64)

    The exponential decay is computed on IEEE doubles.  A finite double is
    represented here by the rational it denotes, and an operation by the
    exact operation followed by rounding to the nearest double, ties to
    even, with gradual underflow.  (Overflow is not modelled: no value
    below exceeds 1.) *)

Module Binary64.

Definition pow2 (e : Z) : Q := Qpower 2 e.

(** The exponent of the binade of a positive [q]: the largest [e] with
    [pow2 e <= q]. *)
Definition log2floor (q : Q) : Z :=
  let e0 := Z.log2 (Qnum q) - Z.log2 (Zpos (Qden q)) in
  if Qle_bool (pow2 e0) q then e0 else e0 - 1.

(** The exponent of the spacing of the doubles around a positive [q]:
    53 significant bits, and the fixed spacing [pow2 (-1074)] of the
    subnormal range. *)
Definition ulpExponent (q : Q) : Z := Z.max (-1074) (log2floor q - 52).

(** Nearest integer, ties to even. *)
Definition roundHalfEven (q : Q) : Z :=
  let f := Qfloor q in
  match (q - inject_Z f ?= 1 # 2)%Q with
  | Lt => f
  | Gt => f + 1
  | Eq => if Z.even f then f else f + 1
  end.

Definition roundPositive (q : Q) : Q :=
  let e := ulpExponent q in
  (inject_Z (roundHalfEven (q * pow2 (- e))) * pow2 e)%Q.

(** The double nearest to [q]. *)
Definition round (q : Q) : Q :=
  match Qnum q with
  | Z0 => 0%Q
  | Zpos _ => roundPositive q
  | Zneg _ => (- roundPositive (- q))%Q
  end.

(** The literal [0.8]. *)
Definition decayBase : Q := round (8 # 10).

(** [Math.pow] with an integer exponent.  The language leaves its last
    bit to the implementation; it is taken here as correctly rounded. *)
Definition pow (base : Q) (exponent : Z) : Q := round (Qpower base exponent).

(** [calculateTemporalProximity] on doubles.  The years are integers, on
    which the subtraction and [Math.abs] are exact. *)
Definition calculateTemporalProximity (queryYear documentYear : Z) : Q :=
  let yearDiff := Z.abs (queryYear - documentYear) in
  pow decayBase yearDiff.

(** The three operations of the blend. *)
Definition add (x y : Q) : Q := round (x + y).
Definition sub (x y : Q) : Q := round (x - y).
Definition mul (x y : Q) : Q := round (x * y).

(** A rational that is a double. *)
Definition representable (q : Q) : Prop := (round q == q)%Q.

(** The callback of [applyTemporalWeighting] on doubles. *)
Definition weightChunk (queryYear : Z) (temporalWeight : Q) (chunk : Chunk)
  : Chunk :=
  if negb (truthy (year chunk)) then
    {| text := text chunk; score := score chunk; filename := filename chunk;
       page := page chunk; year := year chunk;
       temporalScore := temporalScore chunk;
       finalScore := Some (score chunk);
       originalScore := originalScore chunk |}
  else
    let temporalScore :=
      calculateTemporalProximity queryYear (default 0 (year chunk)) in
    let finalScore :=
      add (mul (sub 1 temporalWeight) (score chunk))
          (mul temporalWeight temporalScore) in
    {| text := text chunk; score := score chunk; filename := filename chunk;
       page := page chunk; year := year chunk;
       temporalScore := Some temporalScore;
       finalScore := Some finalScore;
       originalScore := Some (score chunk) |}.

Definition applyTemporalWeighting (chunks : list Chunk) (queryYear : Z)
    (temporalWeight : Q) : list Chunk :=
  List.map (weightChunk queryYear temporalWeight) chunks.

End Binary64.

(** * Further definitions: properties of the search, its caller, the indexer *)

(** A chunk as the vector search hands it over: none of the three fields
    that weighting adds. *)
Definition unweighted (chunk : Chunk) : Prop :=
  temporalScore chunk = None /\ finalScore chunk = None /\
  originalScore chunk = None.

(** The year of [chunk] is absent, 0, or within [tolerance] of [target]. *)
Definition inWindow (target tolerance : Z) (chunk : Chunk) : Prop :=
  year chunk = None \/ year chunk = Some 0 \/
  exists y, year chunk = Some y /\ Z.abs (y - target) <= tolerance.

(** ** The caller: the chat endpoint (pages/api/chat.js) *)

Module Source.
(** One entry of [sources] in the response. *)
Record t : Type := mk {
  filename : option jsstring;
  page : option Z;
  year : option Z;
  score : Q;
  originalScore : Q;
  temporalScore : option Q;
  url : option jsstring;            (* [None] is [null] *)
  urlWithPage : option jsstring
}.
End Source.

Module Qdrant.
(** A point of the search response, as far as the endpoint reads it. *)
Record Payload : Type := mkPayload {
  text : option jsstring;
  filename : option jsstring;
  page_number : option Z;
  year : option Z
}.

Record Point : Type := mkPoint {
  payload : option Payload;
  score : Q
}.
End Qdrant.

Module Chat.

(** The values a settings object holds: numbers and booleans. *)
Inductive setting : Type :=
| SNumber (q : Q)
| SBoolean (b : bool).

(** ToNumber and ToBoolean, the conversions the search applies when it
    computes with a setting and when it tests one. *)
Definition toNumber (v : setting) : Q :=
  match v with
  | SNumber q => q
  | SBoolean b => if b then 1 else 0
  end.

Definition toBoolean (v : setting) : bool :=
  match v with
  | SNumber q => negb (Qeq_bool q 0)
  | SBoolean b => b
  end.

(** The destructuring [{ temporalWeight, yearTolerance, enableFiltering,
    enableWeighting } = options] of [performHybridSearch]: each name is
    looked up in the object passed.  The tolerance is only compared with
    integer distances, so its integer part stands for it. *)
Definition readOptions (options : gmap string setting) : Options :=
  {| temporalWeight := toNumber <$> options !! "temporalWeight";
     yearTolerance :=
       (fun v => Qfloor (toNumber v)) <$> options !! "yearTolerance";
     enableFiltering := toBoolean <$> options !! "enableFiltering";
     enableWeighting := toBoolean <$> options !! "enableWeighting" |}.

(** The shape of [HYBRID_SEARCH_CONFIG], and the constant itself. *)
Definition hybridSearchConfig (weight tolerance filtering weighting : setting)
  : gmap string setting :=
  {[ "TEMPORAL_WEIGHT" := weight;
     "YEAR_TOLERANCE" := tolerance;
     "ENABLE_FILTERING" := filtering;
     "ENABLE_WEIGHTING" := weighting ]}.

Definition HYBRID_SEARCH_CONFIG : gmap string setting :=
  hybridSearchConfig (SNumber (3 # 10)) (SNumber 2)
    (SBoolean true) (SBoolean true).

Definition CONTEXT_LIMIT : nat := 10.

(** Truthiness of an optional string and of an optional number. *)
Definition truthyString (s : option jsstring) : bool :=
  match s with
  | Some (_ :: _) => true
  | _ => false
  end.

Definition truthyNumber (x : option Q) : bool :=
  match x with
  | Some q => negb (Qeq_bool q 0)
  | None => false
  end.

(** [performVectorSearch], after the response is parsed:
    [result?.map(...).filter((chunk) => chunk.text) || []].  A point gives
    a chunk when the text of its payload is truthy. *)
Definition chunkOfPoint (pt : Qdrant.Point) : option Chunk :=
  let payload := Qdrant.payload pt in
  let text := payload ≫= Qdrant.text in
  if truthyString text then
    Some {| text := default [] text;
            score := Qdrant.score pt;
            filename := payload ≫= Qdrant.filename;
            page := payload ≫= Qdrant.page_number;
            year := payload ≫= Qdrant.year;
            temporalScore := None;
            finalScore := None;
            originalScore := None |}
  else None.

Definition chunksOfResult (result : option (list Qdrant.Point)) : list Chunk :=
  match result with
  | Some points => omap chunkOfPoint points
  | None => []
  end.

(** Step 5 of [POST]: the hybrid search on the raw chunks, with the
    settings object given, and the cut to the context limit. *)
Definition hybridSearchStep (config : gmap string setting)
    (rawChunks : list Chunk) (userMessage : jsstring) : SearchResult :=
  performHybridSearch rawChunks userMessage (readOptions config).

Definition finalChunks (topChunks : list Chunk) : list Chunk :=
  firstn CONTEXT_LIMIT topChunks.

Section BuildSources.

(** The conversion of an integer to a string inside a template literal. *)
Variable numberToString : Z -> jsstring.

(** The body of the callback of [buildEnrichedSources]. *)
Definition pdfUrlOf (chunk : Chunk) : option jsstring :=
  if truthyString (filename chunk) && truthy (year chunk) then
    Some (ofString "/datas/" ++ numberToString (default 0 (year chunk))
          ++ ofString "/" ++ default [] (filename chunk))
  else if truthyString (filename chunk) then
    match firstMatch fourDigits (default [] (filename chunk)) with
    | Some year =>
        Some (ofString "/datas/" ++ year ++ ofString "/"
              ++ default [] (filename chunk))
    | None => None
    end
  else None.

Definition enrichedSource (chunk : Chunk) : Source.t :=
  let pdfUrl := pdfUrlOf chunk in
  {| Source.filename := filename chunk;
     Source.page := page chunk;
     Source.year := year chunk;
     Source.score :=
       if truthyNumber (finalScore chunk)
       then default 0%Q (finalScore chunk) else score chunk;
     Source.originalScore :=
       if truthyNumber (originalScore chunk)
       then default 0%Q (originalScore chunk) else score chunk;
     Source.temporalScore := temporalScore chunk;
     Source.url := pdfUrl;
     Source.urlWithPage :=
       if truthy (page chunk) && truthyString pdfUrl
       then Some (default [] pdfUrl ++ ofString "#page="
                  ++ numberToString (default 0 (page chunk)))
       else pdfUrl |}.

Definition buildEnrichedSources (chunks : list Chunk) : list Source.t :=
  List.map enrichedSource chunks.

End BuildSources.

End Chat.

(** ** The indexer (pages/api/QdrantUploader.js) *)

Module Uploader.

Definition newline : codeUnit := 10%N.

Definition nonEmpty (s : jsstring) : bool :=
  match s with
  | [] => false
  | _ :: _ => true
  end.

(** [text.split(/\n+/)]: the pieces between runs of line feeds.  [piece] is
    the piece being read, or [None] inside a run, once the piece before it
    has been given out. *)
Fixpoint splitFrom (piece : option jsstring) (s : jsstring) : list jsstring :=
  match s with
  | [] => [default [] piece]
  | c :: s' =>
      if (c =? newline)%N then
        match piece with
        | Some p => p :: splitFrom None s'
        | None => splitFrom None s'
        end
      else splitFrom (Some (default [] piece ++ [c])) s'
  end.

Definition splitParagraphs (text : jsstring) : list jsstring :=
  splitFrom (Some []) text.

(** The loop of [chunkText], with its two variables [chunks] and
    [current], and the push after the loop. *)
Fixpoint chunkLoop (maxLen : Z) (paragraphs : list jsstring)
    (chunks : list jsstring) (current : jsstring) : list jsstring :=
  match paragraphs with
  | [] => if nonEmpty current then chunks ++ [current] else chunks
  | paragraph :: rest =>
      if Z.of_nat (length (current ++ paragraph)) >? maxLen then
        chunkLoop maxLen rest
          (if nonEmpty current then chunks ++ [current] else chunks)
          paragraph
      else
        chunkLoop maxLen rest chunks
          (current ++ (if nonEmpty current then [newline] else [])
           ++ paragraph)
  end.

Definition chunkText (text : jsstring) (maxLen : Z) : list jsstring :=
  chunkLoop maxLen (splitParagraphs text) [] [].

Definition MAX_CHUNK_SIZE : Z := 1000.

(** The non-empty paragraphs of a text, and a text without its line
    feeds. *)
Definition paragraphsOf (text : jsstring) : list jsstring :=
  List.filter nonEmpty (splitParagraphs text).

Definition withoutNewlines (text : jsstring) : jsstring :=
  List.filter (fun c => negb (c =? newline)%N) text.

(** A string without a line feed; the size a chunk can have: at most
    [maxLen + 1], or any size when it holds no line feed. *)
Definition lineFree (s : jsstring) : Prop :=
  Forall (fun c => c <> newline) s.

Definition sized (maxLen : Z) (chunk : jsstring) : Prop :=
  Z.of_nat (length chunk) <= maxLen + 1 \/ lineFree chunk.

(** The clock, read once for each chunk stored. *)
Record Date : Type := mkDate {
  getFullYear : Z;
  toISOString : jsstring;
  now : Z
}.

(** A validated page, and the payload stored with each of its chunks. *)
Record Page : Type := mkPage {
  page_text : jsstring;
  page_page_number : Z
}.

Record StoredPayload : Type := mkStoredPayload {
  text : jsstring;
  filename : jsstring;
  filepath : jsstring;
  year : Z;
  page_number : Z;
  chunk_index : nat;
  total_chunks : nat;
  timestamp : jsstring;
  _timestamp : Z
}.

Definition orElse (s : option jsstring) (fallback : jsstring) : jsstring :=
  match s with
  | Some (c :: s') => c :: s'
  | _ => fallback
  end.

(** The payload [processPage] builds for the chunk of index [i]. *)
Definition payloadOf (clock : nat -> Date) (page : Page)
    (filename filepath : option jsstring) (year : option Z)
    (pageChunks : nat) (i : nat) (chunk : jsstring) : StoredPayload :=
  {| text := chunk;
     filename := orElse filename (ofString "unknown.txt");
     filepath := orElse filepath (orElse filename (ofString "unknown.txt"));
     year := if truthy year then default 0 year
             else getFullYear (clock i);
     page_number := page_page_number page;
     chunk_index := i;
     total_chunks := pageChunks;
     timestamp := toISOString (clock i);
     _timestamp := now (clock i) |}.

(** [processPage]: the payloads upserted, in order, and the count
    returned.  (The embedding and the identifier of a point come from
    outside and are left out.) *)
Definition processPage (clock : nat -> Date) (page : Page)
    (filename filepath : option jsstring) (year : option Z)
  : list StoredPayload * nat :=
  let chunks := chunkText (page_text page) MAX_CHUNK_SIZE in
  let pageChunks := length chunks in
  (imap (payloadOf clock page filename filepath year pageChunks) chunks,
   pageChunks).

(** A stored payload as the chat endpoint reads it back from a point of a
    search response, with the score the search gave it. *)
Definition asPoint (stored : StoredPayload) (score : Q) : Qdrant.Point :=
  Qdrant.mkPoint
    (Some (Qdrant.mkPayload (Some (text stored)) (Some (filename stored))
             (Some (page_number stored)) (Some (year stored))))
    score.

End Uploader.

(** ** Request bodies (pages/api/QdrantUploader.js, pages/api/chat.js) *)

Module Json.

(** What [request.json()] can give, and [undefined] for a field that is
    not there.  Numbers are exact rationals, as elsewhere. *)
#[warnings="-register-all"] Inductive jsvalue : Type :=
| JUndefined
| JNull
| JBoolean (b : bool)
| JNumber (q : Q)
| JString (s : jsstring)
| JArray (items : list jsvalue)
| JObject (fields : gmap string jsvalue).

(** [value.key], for a key no built-in prototype defines ([text],
    [page_number]): a [TypeError] ([None]) on [null] and [undefined],
    [undefined] on a value that has no such field. *)
Definition readProperty (value : jsvalue) (key : string) : option jsvalue :=
  match value with
  | JUndefined | JNull => None
  | JObject fields => Some (default JUndefined (fields !! key))
  | _ => Some JUndefined
  end.

Definition toBoolean (value : jsvalue) : bool :=
  match value with
  | JUndefined | JNull => false
  | JBoolean b => b
  | JNumber q => negb (Qeq_bool q 0)
  | JString s => Uploader.nonEmpty s
  | JArray _ | JObject _ => true
  end.

(** [typeof value === 'string'], [typeof value === 'number'] and
    [Array.isArray(value)]. *)
Definition isString (value : jsvalue) : bool :=
  match value with JString _ => true | _ => false end.

Definition isNumber (value : jsvalue) : bool :=
  match value with JNumber _ => true | _ => false end.

End Json.

Module UploadRequest.

Import Json.

(** The three results of the validation: [{ valid: true }] is [None], the
    two error messages on pages are told apart by the field they name. *)
Inductive error : Type :=
| PagesMissing          (* Format invalide: pages manquantes ou invalides *)
| TextInvalid           (* Chaque page doit contenir un champ text valide *)
| PageNumberInvalid.    (* Chaque page doit contenir un numero de page valide *)

(** The body of the loop over the pages, for one page: the error it
    returns, if any.  The outer [option] is the [TypeError] of a property
    read. *)
Definition validatePage (page : jsvalue) : option (option error) :=
  match readProperty page "text" with
  | None => None
  | Some text =>
      if negb (toBoolean text) || negb (isString text)
      then Some (Some TextInvalid)
      else
        match readProperty page "page_number" with
        | None => None
        | Some page_number =>
            if negb (toBoolean page_number) || negb (isNumber page_number)
            then Some (Some PageNumberInvalid)
            else Some None
        end
  end.

Fixpoint validatePages (pages : list jsvalue) : option (option error) :=
  match pages with
  | [] => Some None
  | page :: rest =>
      match validatePage page with
      | Some None => validatePages rest
      | stop => stop
      end
  end.

(** [validateUploadData({ filename, filepath, year, pages })]. *)
Definition validateUploadData (filename filepath year pages : jsvalue)
  : option (option error) :=
  match pages with
  | JArray items => validatePages items
  | _ => Some (Some PagesMissing)
  end.

(** A page the validation lets through. *)
Definition wellFormed (page : jsvalue) : Prop :=
  exists fields s q,
    page = JObject fields /\
    fields !! "text" = Some (JString s) /\ s <> [] /\
    fields !! "page_number" = Some (JNumber q) /\ ~ q == 0.

End UploadRequest.

Module ChatRequest.

Import Json.

(** [String.prototype.trim]: the white space and line terminators at
    both ends go. *)
Fixpoint trimStart (s : jsstring) : jsstring :=
  match s with
  | c :: s' => if isSpace c then trimStart s' else s
  | [] => []
  end.

Definition trimEnd (s : jsstring) : jsstring := rev (trimStart (rev s)).

Definition trim (s : jsstring) : jsstring := trimEnd (trimStart s).

(** The validation of the message at the head of [POST]: [None] is the
    response of status 400, otherwise the [userMessage] the rest of the
    handler works with. *)
Definition validateMessage (message : jsvalue) : option jsstring :=
  if negb (toBoolean message) || negb (isString message) then None
  else
    match message with
    | JString s =>
        if (length (trim s) =? 0)%nat then None else Some (trim s)
    | _ => None
    end.

End ChatRequest.

(** ** The year of a listed document (pages/documents.astro) *)

Module Documents.

(** [/^\d{4}$/.test(part)]. *)
Definition isYearPart (part : jsstring) : bool :=
  match matchAt fourDigits part Some with
  | Some [] => true
  | _ => false
  end.

(** The loop over the parts of the path: the first part of four digits
    decides, and ends the loop. *)
Fixpoint yearOfParts (pathParts : list jsstring) : option Z :=
  match pathParts with
  | [] => None
  | part :: rest =>
      if isYearPart part then parseInt part else yearOfParts rest
  end.

(** The year [listPdfs] gives the file [name] found under the directories
    [dirs] (below the base directory), [currentYear] being
    [new Date().getFullYear()]. *)
Definition yearOf (dirs : list jsstring) (name : jsstring) (currentYear : Z)
  : option Z :=
  let pathParts := dirs ++ [name] in
  let year := yearOfParts pathParts in
  let year :=
    if negb (truthy year) then
      match firstMatch fourDigits name with
      | Some yearMatch => parseInt yearMatch
      | None => year
      end
    else year in
  let year := if negb (truthy year) then Some currentYear else year in
  year.

End Documents.

(** ** The first uploader (pages/api/QDrantUploader.js)

    The endpoint the upload component posts a whole text to.  Its payloads
    carry neither a year nor a page number. *)

Module LegacyUploader.

Record StoredPayload : Type := mkStoredPayload {
  text : jsstring;
  filename : jsstring;
  chunk_index : nat;
  total_chunks : nat;
  timestamp : jsstring;
  _timestamp : Z
}.

(** The payloads the loop of [POST] upserts, in order, for a request with
    a string [text]. *)
Definition stored (clock : nat -> Uploader.Date) (text : jsstring)
    (filename : option jsstring) : list StoredPayload :=
  let chunks := Uploader.chunkText text 1000 in
  let totalChunks := length chunks in
  imap (fun i chunk =>
          {| text := chunk;
             filename := Uploader.orElse filename (ofString "unknown.txt");
             chunk_index := i;
             total_chunks := totalChunks;
             timestamp := Uploader.toISOString (clock i);
             _timestamp := Uploader.now (clock i) |})
       chunks.

(** A stored payload as a point of a search response. *)
Definition asPoint (payload : StoredPayload) (score : Q) : Qdrant.Point :=
  Qdrant.mkPoint
    (Some (Qdrant.mkPayload (Some (text payload)) (Some (filename payload))
             None None))
    score.

End LegacyUploader.

(** [{ ...chunk, finalScore: chunk.score }], what the weighting makes of a
    chunk without a year. *)
Definition scoreAsFinal (chunk : Chunk) : Chunk :=
  {| text := text chunk; score := score chunk; filename := filename chunk;
     page := page chunk; year := year chunk;
     temporalScore := temporalScore chunk;
     finalScore := Some (score chunk);
     originalScore := originalScore chunk |}.

(** * Properties *)

(** ** Year extraction *)

Section ExtractYear.

Local Open Scope Z_scope.

Lemma tryPattern_range pattern query year :
  tryPattern pattern query = Some year -> 1900 <= year <= 2100.
Proof.
  unfold tryPattern.
  destruct (firstMatch pattern query) as [m0|]; [|discriminate].
  destruct (firstMatch fourDigits m0) as [ym|]; [|discriminate].
  destruct (parseInt ym) as [y|]; [|discriminate].
  destruct ((1900 <=? y) && (y <=? 2100)) eqn:E; [|discriminate].
  intros [= <-]. apply andb_prop in E as [E1 E2]. lia.
Qed.

(** The loop returns the year of the first pattern, in list order, whose
    turn succeeds. *)
Lemma firstYear_priority patterns query year :
  firstYear patterns query = Some year <->
  exists (i : nat) pattern,
    patterns !! i = Some pattern /\
    tryPattern pattern query = Some year /\
    forall (j : nat) earlier,
      (j < i)%nat -> patterns !! j = Some earlier ->
      tryPattern earlier query = None.
Proof.
  induction patterns as [|p ps IH]; simpl.
  - split; [discriminate|]. intros (i & q & Hi & _). destruct i; discriminate.
  - destruct (tryPattern p query) as [y|] eqn:Hp.
    + split.
      * intros [= <-]. exists 0%nat, p. repeat split; auto.
        intros j e Hj. lia.
      * intros (i & q & Hi & Hq & Hfirst). destruct i as [|i].
        -- simpl in Hi. injection Hi as <-. congruence.
        -- specialize (Hfirst 0%nat p ltac:(lia) eq_refl). congruence.
    + rewrite IH. split.
      * intros (i & q & Hi & Hq & Hfirst). exists (S i), q.
        repeat split; auto. intros [|j] e Hj He.
        -- simpl in He. injection He as <-. exact Hp.
        -- apply (Hfirst j); [lia | exact He].
      * intros (i & q & Hi & Hq & Hfirst). destruct i as [|i].
        -- simpl in Hi. injection Hi as <-. congruence.
        -- exists i, q. repeat split; auto. intros j e Hj He.
           apply (Hfirst (S j)); [lia | exact He].
Qed.

Lemma firstYear_none patterns query :
  firstYear patterns query = None <->
  Forall (fun pattern => tryPattern pattern query = None) patterns.
Proof.
  induction patterns as [|p ps IH]; simpl.
  - split; auto.
  - destruct (tryPattern p query) eqn:Hp.
    + split; [discriminate|]. intros H. inversion H; congruence.
    + rewrite IH. split; [intros H; constructor; auto|].
      intros H. now inversion H.
Qed.

Lemma matchTimes_fourDigitsAt s :
  fourDigitsAt s = false -> matchTimes 4 isDigit s = None.
Proof.
  unfold fourDigitsAt.
  destruct s as [|c1 [|c2 [|c3 [|c4 s]]]]; simpl; try reflexivity;
    repeat match goal with
           | |- context [isDigit ?c] => destruct (isDigit c); simpl
           end;
    try reflexivity; discriminate.
Qed.

(** The bare pattern finds the leftmost four consecutive digits, whatever
    comes after them. *)
Lemma firstMatch_fourDigits pre d rest :
  noneBefore (length pre) (pre ++ d ++ rest) = true ->
  length d = 4%nat -> forallb isDigit d = true ->
  firstMatch fourDigits (pre ++ d ++ rest) = Some d.
Proof.
  intros Hpre Hlen Hd. induction pre as [|c pre IH].
  - destruct d as [|d1 [|d2 [|d3 [|d4 [|? ?]]]]]; try discriminate.
    simpl in Hd. rewrite !andb_true_iff in Hd.
    destruct Hd as (H1 & H2 & H3 & H4 & _).
    simpl. rewrite H1, H2, H3, H4. f_equal.
    replace (S (S (S (S (length rest)))) - length rest)%nat with 4%nat by lia.
    reflexivity.
  - simpl length in Hpre. cbn [noneBefore app] in Hpre.
    change ((c :: pre) ++ d ++ rest) with (c :: (pre ++ d ++ rest)).
    apply andb_prop in Hpre as [Hc Hpre]. apply negb_true_iff in Hc.
    cbn [firstMatch fourDigits matchAt].
    rewrite (matchTimes_fourDigitsAt _ Hc). now apply IH.
Qed.

Lemma firstMatch_fourDigits_self d :
  length d = 4%nat -> forallb isDigit d = true ->
  firstMatch fourDigits d = Some d.
Proof.
  intros Hlen Hd.
  pose proof (firstMatch_fourDigits [] d [] eq_refl Hlen Hd) as H.
  simpl in H. now rewrite app_nil_r in H.
Qed.

Lemma parseInt_digits d :
  length d = 4%nat -> forallb isDigit d = true ->
  parseInt d = Some (parseDigits 0 d).
Proof.
  destruct d as [|c d]; [discriminate|]. simpl. intros _ H.
  apply andb_prop in H as [Hc _]. now rewrite Hc.
Qed.

Lemma tryPattern_fourDigits pre d rest :
  noneBefore (length pre) (pre ++ d ++ rest) = true ->
  length d = 4%nat -> forallb isDigit d = true ->
  tryPattern fourDigits (pre ++ d ++ rest) =
  if (1900 <=? parseDigits 0 d) && (parseDigits 0 d <=? 2100)
  then Some (parseDigits 0 d) else None.
Proof.
  intros Hpre Hlen Hd. unfold tryPattern.
  rewrite (firstMatch_fourDigits pre d rest Hpre Hlen Hd).
  rewrite (firstMatch_fourDigits_self d Hlen Hd).
  now rewrite (parseInt_digits d Hlen Hd).
Qed.

Lemma extracted_year_in_range query year :
  extractYearFromQuery query = Some year -> 1900 <= year <= 2100.
Proof.
  intros E. apply firstYear_priority in E as (i & p & _ & Hp & _).
  exact (tryPattern_range _ _ _ Hp).
Qed.

End ExtractYear.

(** C6.  On every string, [extractYearFromQuery] returns either nothing or
    one integer between 1900 and 2100; being a total function of the string
    it has no other outcome. *)
Theorem extractYearFromQuery_range (query : jsstring) :
  extractYearFromQuery query = None \/
  exists year, extractYearFromQuery query = Some year /\ 1900 <= year <= 2100.
Proof.
  destruct (extractYearFromQuery query) as [y|] eqn:E; [right|now left].
  exists y. split; [reflexivity|]. exact (extracted_year_in_range query y E).
Qed.

(** C7, the claim as stated fails: the bare pattern matches the first four
    digits of the seven-digit runs "1950000" and "2500000", and the query
    "1950000" alone yields the year 1950. *)
Lemma longer_run_yields_year :
  firstMatch fourDigits (ofString "2500000") = Some (ofString "2500") /\
  firstMatch fourDigits (ofString "1950000") = Some (ofString "1950") /\
  extractYearFromQuery (ofString "1950000") = Some 1950.
Proof. repeat split; reflexivity. Qed.

(** C7, amended.  The bare pattern matches the leftmost four consecutive
    digits of the query, also when more digits follow them, and the query
    yields their value whenever it lies in 1900..2100.  In
    general the result is the year given by the first pattern, in the order
    bare / cue word / article, whose leftmost match parses to a value in that
    range; it is absent exactly when no pattern gives one.  So "1950000"
    yields 1950, and "2500000" yields nothing because 2500 is out of
    range. *)
Theorem extractYearFromQuery_priority (query : jsstring) :
  (forall pre d rest,
      query = pre ++ d ++ rest ->
      noneBefore (length pre) query = true ->
      length d = 4%nat -> forallb isDigit d = true ->
      firstMatch fourDigits query = Some d /\
      (1900 <= parseDigits 0 d <= 2100 ->
       extractYearFromQuery query = Some (parseDigits 0 d))) /\
  (forall year,
      extractYearFromQuery query = Some year <->
      exists (i : nat) pattern,
        yearPatterns !! i = Some pattern /\
        tryPattern pattern query = Some year /\
        forall (j : nat) earlier,
          (j < i)%nat -> yearPatterns !! j = Some earlier ->
          tryPattern earlier query = None) /\
  (extractYearFromQuery query = None <->
   Forall (fun pattern => tryPattern pattern query = None) yearPatterns) /\
  extractYearFromQuery (ofString "1950000") = Some 1950 /\
  extractYearFromQuery (ofString "2500000") = None.
Proof.
  split; [|split; [|split; [|split; reflexivity]]].
  - intros pre d rest -> Hpre Hlen Hd. split.
    + now apply firstMatch_fourDigits.
    + intros Hr. unfold extractYearFromQuery, yearPatterns. simpl firstYear.
      rewrite (tryPattern_fourDigits pre d rest Hpre Hlen Hd).
      destruct Hr as [H1 H2].
      apply Z.leb_le in H1, H2. now rewrite H1, H2.
  - intros year. apply firstYear_priority.
  - apply firstYear_none.
Qed.

Lemma extractYearFromQuery_priority_witness :
  firstMatch fourDigits (ofString "lot 12, 1950000") = Some (ofString "1950") /\
  extractYearFromQuery (ofString "lot 12, 1950000") = Some 1950.
Proof.
  destruct (extractYearFromQuery_priority (ofString "lot 12, 1950000"))
    as [H _].
  destruct (H (ofString "lot 12, ") (ofString "1950") (ofString "000")
              eq_refl eq_refl eq_refl eq_refl) as [H1 H2].
  split; [exact H1|]. apply H2. vm_compute. split; discriminate.
Defined.

(** ** Temporal proximity *)

Section Proximity.

Local Open Scope Q_scope.




End Proximity.

(** ** Rounding to double precision *)

Section Rounding.

Import Binary64.
Local Open Scope Q_scope.

Lemma pow2_pos e : 0 < pow2 e.
Proof. apply Qpower_0_lt. reflexivity. Qed.

Lemma pow2_le a b : (a <= b)%Z -> pow2 a <= pow2 b.
Proof. intros H. apply Qpower_le_compat_l; [exact H | discriminate]. Qed.

Lemma pow2_lt a b : (a < b)%Z -> pow2 a < pow2 b.
Proof. intros H. apply Qpower_lt_compat_l; [exact H | reflexivity]. Qed.

Lemma pow2_plus a b : pow2 (a + b) == pow2 a * pow2 b.
Proof. apply Qpower_plus. discriminate. Qed.

Lemma pow2_Z k : (0 <= k)%Z -> inject_Z (2 ^ k) == pow2 k.
Proof. apply Zpower_Qpower. Qed.

Lemma pow2_cancel e : pow2 e * pow2 (- e) == 1.
Proof. rewrite <- pow2_plus, Z.add_opp_diag_r. reflexivity. Qed.

Lemma log2floor_spec q :
  0 < q -> pow2 (log2floor q) <= q /\ q < pow2 (log2floor q + 1).
Proof.
  intros Hq. destruct q as [n d].
  assert (Hn : (0 < n)%Z).
  { unfold Qlt in Hq. simpl in Hq. lia. }
  unfold log2floor. cbn [Qnum Qden].
  set (ln := Z.log2 n). set (ld := Z.log2 (Zpos d)).
  destruct (Z.log2_spec n Hn) as [Hn1 Hn2].
  destruct (Z.log2_spec (Zpos d) eq_refl) as [Hd1 Hd2].
  fold ln in Hn1, Hn2. fold ld in Hd1, Hd2.
  assert (Hln : (0 <= ln)%Z) by apply Z.log2_nonneg.
  assert (Hld : (0 <= ld)%Z) by apply Z.log2_nonneg.
  set (N := inject_Z n). set (D := inject_Z (Zpos d)).
  assert (HD : 0 < D) by reflexivity.
  assert (Hq' : (n # d) * D == N).
  { unfold N, D. rewrite (Qmake_Qdiv n d). field. discriminate. }
  assert (HN1 : pow2 ln <= N).
  { rewrite <- pow2_Z by exact Hln. unfold N. now rewrite <- Zle_Qle. }
  assert (HN2 : N < pow2 (ln + 1)).
  { rewrite <- pow2_Z by lia. unfold N. now rewrite <- Zlt_Qlt. }
  assert (HD1 : pow2 ld <= D).
  { rewrite <- pow2_Z by exact Hld. unfold D. now rewrite <- Zle_Qle. }
  assert (HD2 : D < pow2 (ld + 1)).
  { rewrite <- pow2_Z by lia. unfold D. now rewrite <- Zlt_Qlt. }
  assert (Hup : (n # d) < pow2 (ln - ld + 1)).
  { apply (Qmult_lt_r _ _ D HD). rewrite Hq'.
    apply (Qlt_le_trans _ (pow2 (ln + 1))); [exact HN2|].
    replace (ln + 1)%Z with ((ln - ld + 1) + ld)%Z by ring.
    rewrite pow2_plus. apply Qmult_le_l; [apply pow2_pos | exact HD1]. }
  assert (Hlow : pow2 (ln - ld - 1) <= (n # d)).
  { apply (Qmult_le_r _ _ D HD). rewrite Hq'.
    apply (Qle_trans _ (pow2 ln)); [|exact HN1].
    replace ln with ((ln - ld - 1) + (ld + 1))%Z at 2 by ring.
    rewrite pow2_plus. apply Qmult_le_l; [apply pow2_pos|].
    now apply Qlt_le_weak. }
  destruct (Qle_bool (pow2 (ln - ld)) (n # d)) eqn:E.
  - apply Qle_bool_iff in E. split; [exact E | exact Hup].
  - split; [exact Hlow|].
    replace (ln - ld - 1 + 1)%Z with (ln - ld)%Z by ring.
    apply Qnot_le_lt. intros H. apply Qle_bool_iff in H. congruence.
Qed.

Lemma log2floor_mono q1 q2 :
  0 < q1 -> q1 <= q2 -> (log2floor q1 <= log2floor q2)%Z.
Proof.
  intros H1 H12.
  destruct (log2floor_spec q1 H1) as [L1 _].
  destruct (log2floor_spec q2 (Qlt_le_trans _ _ _ H1 H12)) as [_ U2].
  destruct (Z.le_gt_cases (log2floor q1) (log2floor q2)) as [H|H]; [exact H|].
  exfalso. apply (Qlt_irrefl q2).
  apply (Qlt_le_trans _ _ _ U2).
  apply (Qle_trans _ (pow2 (log2floor q1))); [apply pow2_le; lia|].
  now apply (Qle_trans _ q1).
Qed.

(** The mantissa of a positive [q] at its own spacing is below [2^53],
    and at least [2^52] outside the subnormal range. *)
Lemma mantissa_bounds q :
  0 < q ->
  q * pow2 (- ulpExponent q) < pow2 53 /\
  ((-1074 < ulpExponent q)%Z -> pow2 52 <= q * pow2 (- ulpExponent q)).
Proof.
  intros Hq. destruct (log2floor_spec q Hq) as [L U].
  unfold ulpExponent. set (l := log2floor q) in *.
  set (e := Z.max (-1074) (l - 52)).
  assert (He : (l - 52 <= e)%Z) by apply Z.le_max_r.
  split.
  - apply (Qmult_lt_r _ _ (pow2 e) (pow2_pos e)).
    rewrite <- Qmult_assoc, (Qmult_comm (pow2 (- e))), pow2_cancel,
      Qmult_1_r, <- pow2_plus.
    apply (Qlt_le_trans _ _ _ U). apply pow2_le. lia.
  - intros Hn. assert (e = (l - 52)%Z) by (unfold e in *; lia).
    apply (Qmult_le_r _ _ (pow2 e) (pow2_pos e)).
    rewrite <- Qmult_assoc, (Qmult_comm (pow2 (- e))), pow2_cancel,
      Qmult_1_r, <- pow2_plus.
    replace (52 + e)%Z with l by lia. exact L.
Qed.

Lemma roundHalfEven_cases q :
  roundHalfEven q = Qfloor q \/
  (roundHalfEven q = (Qfloor q + 1)%Z /\ 1 # 2 <= q - inject_Z (Qfloor q)).
Proof.
  unfold roundHalfEven.
  destruct (Qcompare_spec (q - inject_Z (Qfloor q)) (1 # 2)) as [H|H|H].
  - destruct (Z.even (Qfloor q)); [now left | right].
    split; [reflexivity | rewrite H; apply Qle_refl].
  - now left.
  - right. split; [reflexivity | now apply Qlt_le_weak].
Qed.

Lemma roundHalfEven_le q z : q <= inject_Z z -> (roundHalfEven q <= z)%Z.
Proof.
  intros H. pose proof (Qfloor_le q) as Hf.
  destruct (roundHalfEven_cases q) as [-> | [-> Hr]].
  - rewrite Zle_Qle. now apply (Qle_trans _ q).
  - assert (inject_Z (Qfloor q) < inject_Z z) by lra.
    rewrite <- Zlt_Qlt in H0. lia.
Qed.

Lemma roundHalfEven_ge q z : inject_Z z <= q -> (z <= roundHalfEven q)%Z.
Proof.
  intros H. apply Qfloor_resp_le in H. rewrite Qfloor_Z in H.
  destruct (roundHalfEven_cases q) as [-> | [-> _]]; lia.
Qed.

Lemma roundHalfEven_mono x y :
  x <= y -> (roundHalfEven x <= roundHalfEven y)%Z.
Proof.
  intros Hxy. pose proof (Qfloor_resp_le x y Hxy) as Hf.
  destruct (Z.eq_dec (Qfloor x) (Qfloor y)) as [E|E].
  - unfold roundHalfEven. rewrite <- E.
    destruct (Qcompare_spec (x - inject_Z (Qfloor x)) (1 # 2)) as [Hx|Hx|Hx];
    destruct (Qcompare_spec (y - inject_Z (Qfloor x)) (1 # 2)) as [Hy|Hy|Hy];
      try lia; try (destruct (Z.even (Qfloor x)); lia);
      exfalso; lra.
  - apply (Z.le_trans _ (Qfloor x + 1)).
    + destruct (roundHalfEven_cases x) as [-> | [-> _]]; lia.
    + apply (Z.le_trans _ (Qfloor y)); [lia|].
      apply roundHalfEven_ge, Qfloor_le.
Qed.

Lemma roundPositive_nonneg q : 0 < q -> 0 <= roundPositive q.
Proof.
  intros Hq. unfold roundPositive. apply Qmult_le_0_compat.
  - change 0 with (inject_Z 0). rewrite <- Zle_Qle.
    apply roundHalfEven_ge. simpl.
    apply Qmult_le_0_compat; [now apply Qlt_le_weak|].
    apply Qlt_le_weak, pow2_pos.
  - apply Qlt_le_weak, pow2_pos.
Qed.

Lemma roundPositive_mono q1 q2 :
  0 < q1 -> q1 <= q2 -> roundPositive q1 <= roundPositive q2.
Proof.
  intros H1 H12.
  assert (H2 : 0 < q2) by now apply (Qlt_le_trans _ q1).
  pose proof (log2floor_mono q1 q2 H1 H12) as Hl.
  destruct (mantissa_bounds q1 H1) as [U1 _].
  destruct (mantissa_bounds q2 H2) as [_ L2].
  unfold roundPositive.
  set (e1 := ulpExponent q1) in *. set (e2 := ulpExponent q2) in *.
  assert (He : (e1 <= e2)%Z) by (unfold e1, e2, ulpExponent; lia).
  destruct (Z.eq_dec e1 e2) as [E|E].
  - rewrite <- E. apply Qmult_le_compat_r; [|apply Qlt_le_weak, pow2_pos].
    rewrite <- Zle_Qle. apply roundHalfEven_mono.
    apply Qmult_le_compat_r; [exact H12 | apply Qlt_le_weak, pow2_pos].
  - assert (Hlt : (-1074 < e2)%Z).
    { assert (-1074 <= e1)%Z by apply Z.le_max_l. lia. }
    specialize (L2 Hlt).
    apply (Qle_trans _ (pow2 (53 + e1))).
    + rewrite pow2_plus.
      apply Qmult_le_compat_r; [|apply Qlt_le_weak, pow2_pos].
      rewrite <- (pow2_Z 53) by lia. rewrite <- Zle_Qle.
      apply roundHalfEven_le. rewrite (pow2_Z 53) by lia.
      now apply Qlt_le_weak.
    + apply (Qle_trans _ (pow2 (52 + e2))); [apply pow2_le; lia|].
      rewrite pow2_plus.
      apply Qmult_le_compat_r; [|apply Qlt_le_weak, pow2_pos].
      rewrite <- (pow2_Z 52) by lia. rewrite <- Zle_Qle.
      apply roundHalfEven_ge. now rewrite (pow2_Z 52) by lia.
Qed.

Lemma round_positive q : 0 < q -> round q = roundPositive q.
Proof.
  destruct q as [[|n|n] d]; intros H; try reflexivity; discriminate.
Qed.

Lemma round_nonneg q : 0 <= q -> 0 <= round q.
Proof.
  intros H. destruct q as [[|n|n] d].
  - apply Qle_refl.
  - now apply roundPositive_nonneg.
  - exfalso. now apply H.
Qed.

(** Rounding is monotone. *)
Lemma round_mono q1 q2 : 0 <= q1 -> q1 <= q2 -> round q1 <= round q2.
Proof.
  intros H1 H12. destruct (Qlt_le_dec 0 q1) as [Hp|Hz].
  - rewrite !round_positive;
      [now apply roundPositive_mono | now apply (Qlt_le_trans _ q1) | exact Hp].
  - assert (E : Qnum q1 = 0%Z).
    { unfold Qle in H1, Hz. simpl in H1, Hz. lia. }
    unfold round at 1. rewrite E.
    apply round_nonneg. now apply (Qle_trans _ q1).
Qed.


(** Powers: monotone in a non-negative base, antitone in the exponent for
    a base at most 1. *)
Lemma Qpower_base_mono x y n :
  0 <= x -> x <= y -> (0 <= n)%Z -> x ^ n <= y ^ n.
Proof.
  intros Hx Hxy Hn. revert n Hn. apply natlike_ind.
  - apply Qle_refl.
  - intros n Hn IH. unfold Z.succ.
    rewrite !Qpower_plus' by lia. rewrite !Qpower_1_r.
    apply Qmult_le_compat_nonneg; split; auto.
    now apply Qpower_0_le.
Qed.

Lemma Qpower_exponent_antitone b m n :
  0 < b -> b <= 1 -> (0 <= m <= n)%Z -> b ^ n <= b ^ m.
Proof.
  intros Hb Hb1 Hmn.
  replace n with (m + (n - m))%Z by ring.
  rewrite Qpower_plus by (intros E; rewrite E in Hb; discriminate).
  rewrite <- (Qmult_1_r (b ^ m)) at 2.
  apply Qmult_le_l; [now apply Qpower_0_lt|].
  rewrite <- (Qpower_1 (n - m)).
  apply Qpower_base_mono; [now apply Qlt_le_weak | exact Hb1 | lia].
Qed.

Lemma decayBase_range : 0 < decayBase /\ decayBase <= 1.
Proof. split; vm_compute; [reflexivity | discriminate]. Qed.



Lemma proximity_unfold queryYear documentYear :
  Binary64.calculateTemporalProximity queryYear documentYear
  = round (decayBase ^ Z.abs (queryYear - documentYear)).
Proof. reflexivity. Qed.

Lemma proximity_antitone m n :
  (0 <= m <= n)%Z -> round (decayBase ^ n) <= round (decayBase ^ m).
Proof.
  intros H. destruct decayBase_range as [Hb Hb1]. apply round_mono.
  - apply Qpower_0_le. now apply Qlt_le_weak.
  - now apply Qpower_exponent_antitone.
Qed.



End Rounding.




(** ** Temporal filter *)

Section Filter.

Lemma truthy_false (v : option Z) :
  truthy v = false <-> v = None \/ v = Some 0.
Proof.
  destruct v as [n|]; simpl.
  - rewrite negb_false_iff, Z.eqb_eq. split.
    + intros ->. now right.
    + intros [H|[= ->]]; [discriminate | reflexivity].
  - split; auto.
Qed.

Lemma truthy_true (v : option Z) :
  truthy v = true <-> exists n, v = Some n /\ n <> 0.
Proof.
  destruct v as [n|]; simpl.
  - rewrite negb_true_iff, Z.eqb_neq. split.
    + intros H. now exists n.
    + now intros (m & [= <-] & H).
  - split; [discriminate | now intros (n & H & _)].
Qed.

Lemma keepChunk_iff targetYear tolerance chunk :
  keepChunk targetYear tolerance chunk = true <->
  year chunk = None \/ year chunk = Some 0 \/
  exists y, year chunk = Some y /\ Z.abs (y - targetYear) <= tolerance.
Proof.
  unfold keepChunk. destruct (year chunk) as [y|]; simpl.
  - destruct (Z.eqb_spec y 0) as [->|Hy]; simpl.
    + split; auto.
    + rewrite Z.leb_le. split.
      * intros H. right. right. now exists y.
      * intros [H|[[= H]|(z & [= <-] & H)]]; [discriminate | contradiction | exact H].
  - split; auto.
Qed.

Lemma filter_sublist {A} (f : A -> bool) (l : list A) :
  sublist (List.filter f l) l.
Proof.
  induction l as [|x l IH]; simpl.
  - constructor.
  - destruct (f x); now constructor.
Qed.

End Filter.

(** C2, the claim as stated fails: a chunk whose year field is 0 has a year
    field, lies 2025 years from the target, and is retained all the same. *)
Lemma filterByYear_keeps_year_zero :
  let chunk := plain (1 # 2) (Some 0) in
  filterByYear [chunk] 2025 2 = [chunk] /\
  retainedBySpec 2025 2 chunk = false.
Proof. split; reflexivity. Qed.

(** C2, amended.  [filterByYear] retains a chunk if and only if its year is
    absent or 0, or |chunk.year - targetYear| <= tolerance; the survivors
    keep their relative order (the output is the input with the other
    chunks struck out); a chunk without a year survives a tolerance of 0;
    the empty list gives the empty list. *)
Theorem filterByYear_policy (chunks : list Chunk) (targetYear tolerance : Z) :
  filterByYear chunks targetYear tolerance
  = List.filter (fun chunk => negb (dated chunk)
                              || retainedBySpec targetYear tolerance chunk)
      chunks /\
  (forall chunk,
      In chunk (filterByYear chunks targetYear tolerance) <->
      In chunk chunks /\
      (year chunk = None \/ year chunk = Some 0 \/
       exists y, year chunk = Some y /\ Z.abs (y - targetYear) <= tolerance)) /\
  sublist (filterByYear chunks targetYear tolerance) chunks /\
  (forall chunk,
      In chunk chunks -> year chunk = None ->
      In chunk (filterByYear chunks targetYear 0)) /\
  filterByYear [] targetYear tolerance = [].
Proof.
  split; [|split; [|split; [|split]]].
  - unfold filterByYear. apply filter_ext. intros c.
    unfold keepChunk, retainedBySpec, dated.
    destruct (year c) as [y|]; simpl; [|reflexivity].
    now destruct (y =? 0).
  - intros c. unfold filterByYear. rewrite filter_In, keepChunk_iff. tauto.
  - apply filter_sublist.
  - intros c Hin Hy. unfold filterByYear. apply filter_In. split; [exact Hin|].
    apply keepChunk_iff. now left.
  - reflexivity.
Qed.

Lemma filterByYear_policy_witness :
  In (plain (1 # 2) None) (filterByYear [plain (1 # 2) None] 2025 0).
Proof.
  destruct (filterByYear_policy [plain (1 # 2) None] 2025 0)
    as (_ & _ & _ & H & _).
  apply H; [left|]; reflexivity.
Defined.

(** ** Temporal weighting *)




(** ** The final sort *)

Section SortFacts.

Context {A B : Type}.
Variable comparefn : A -> A -> option Q.
Variable g : B -> A.

Lemma insert_perm x l :
  Permutation (x :: l) (ArraySort.insert comparefn x l).
Proof.
  induction l as [|y l IH]; simpl.
  - reflexivity.
  - destruct (ArraySort.after comparefn x y).
    + rewrite perm_swap. now apply perm_skip.
    + reflexivity.
Qed.

Lemma sort_perm l : Permutation l (ArraySort.sort comparefn l).
Proof.
  induction l as [|x l IH]; simpl.
  - reflexivity.
  - rewrite <- insert_perm. now apply perm_skip.
Qed.

(** Sorting records through a projection sorts the projections. *)
Lemma insert_map x l :
  List.map g (ArraySort.insert (fun a b => comparefn (g a) (g b)) x l)
  = ArraySort.insert comparefn (g x) (List.map g l).
Proof.
  induction l as [|y l IH]; simpl; [reflexivity|].
  unfold ArraySort.after at 1 2.
  destruct (comparefn (g x) (g y)) as [v|]; [|reflexivity].
  destruct (negb (Qle_bool v 0)); simpl; [now rewrite IH | reflexivity].
Qed.

Lemma sort_map l :
  List.map g (ArraySort.sort (fun a b => comparefn (g a) (g b)) l)
  = ArraySort.sort comparefn (List.map g l).
Proof.
  induction l as [|x l IH]; simpl; [reflexivity|].
  now rewrite insert_map, IH.
Qed.

End SortFacts.

Section SortByKey.

Variable k : sortKey.

Local Abbreviation insert := (ArraySort.insert (byKeyDescending k)).
Local Abbreviation sort := (ArraySort.sort (byKeyDescending k)).
Local Abbreviation after := (ArraySort.after (byKeyDescending k)).

Local Abbreviation keyed := (keyed k).

Lemma after_true a b :
  after a b = true ->
  exists x y, getKey k a = Some x /\ getKey k b = Some y /\ (x < y)%Q.
Proof.
  unfold ArraySort.after, byKeyDescending.
  destruct (getKey k b) as [y|]; [|discriminate].
  destruct (getKey k a) as [x|]; [|discriminate].
  intros H. exists x, y. repeat split.
  apply negb_true_iff in H.
  destruct (Qlt_le_dec x y) as [Hlt|Hle]; [exact Hlt|].
  exfalso. assert (Hb : Qle_bool (y - x) 0 = true).
  { apply Qle_bool_iff. unfold Qminus. 
    rewrite <- (Qplus_opp_r x). apply Qplus_le_compat; [exact Hle | apply Qle_refl]. }
  congruence.
Qed.

Lemma after_false a b x y :
  getKey k a = Some x -> getKey k b = Some y ->
  after a b = false -> (y <= x)%Q.
Proof.
  unfold ArraySort.after, byKeyDescending. intros -> ->.
  intros H. apply negb_false_iff, Qle_bool_iff in H.
  apply Qplus_le_compat with (x := (y - x)%Q) (y := 0%Q) (z := x) (t := x) in H;
    [|apply Qle_refl].
  rewrite Qplus_0_l in H. unfold Qminus in H.
  rewrite <- Qplus_assoc, (Qplus_comm (- x) x), Qplus_opp_r, Qplus_0_r in H.
  exact H.
Qed.

Lemma descending_trans a b c :
  descending k a b -> descending k b c -> descending k a c.
Proof.
  unfold descending.
  destruct (getKey k a), (getKey k b), (getKey k c); try tauto.
  intros H1 H2. eapply Qle_trans; eauto.
Qed.

Lemma insert_sorted x l :
  keyed x -> Forall keyed l ->
  StronglySorted (descending k) l ->
  StronglySorted (descending k) (insert x l).
Proof.
  intros [vx Hx] Hl Hs. induction Hs as [|y l Hs IH Hy]; simpl.
  - repeat constructor.
  - inversion Hl as [|? ? [vy Hky] Hl']; subst.
    destruct (after x y) eqn:E.
    + constructor; [now apply IH|].
      rewrite <- insert_perm. constructor; [|exact Hy].
      apply after_true in E as (x' & y' & Hx' & Hy' & Hlt).
      unfold descending. rewrite Hy', Hx'. now apply Qlt_le_weak.
    + assert (Hxy : descending k x y).
      { unfold descending. rewrite Hx, Hky. eapply after_false; eauto. }
      constructor; [now constructor|].
      constructor; [exact Hxy|].
      eapply List.Forall_impl; [|exact Hy].
      intros z Hz. eapply descending_trans; eauto.
Qed.

Lemma sort_sorted l :
  Forall keyed l -> StronglySorted (descending k) (sort l).
Proof.
  induction l as [|x l IH]; simpl; intros H.
  - constructor.
  - inversion H; subst. apply insert_sorted; auto.
    eapply Permutation_Forall; [apply sort_perm|]. assumption.
Qed.

(** Stability: insertion never moves a chunk past one with an equal key. *)
Lemma insert_stable v x l :
  List.filter (hasKey k v) (insert x l)
  = List.filter (hasKey k v) (x :: l).
Proof.
  induction l as [|y l IH]; [reflexivity|].
  simpl. destruct (after x y) eqn:E; [|reflexivity].
  simpl. simpl in IH. rewrite IH.
  apply after_true in E as (vx & vy & Hx & Hy & Hlt).
  destruct (hasKey k v x) eqn:Ex; [|reflexivity].
  destruct (hasKey k v y) eqn:Ey; [|reflexivity].
  unfold hasKey in Ex, Ey. rewrite Hx in Ex. rewrite Hy in Ey.
  apply Qeq_bool_iff in Ex, Ey. exfalso.
  rewrite Ex, Ey in Hlt. exact (Qlt_irrefl _ Hlt).
Qed.

Lemma sort_stable v l :
  List.filter (hasKey k v) (sort l) = List.filter (hasKey k v) l.
Proof.
  induction l as [|x l IH]; [reflexivity|].
  simpl ArraySort.sort. rewrite insert_stable. simpl. now rewrite IH.
Qed.

End SortByKey.

(** ** The orchestrator *)

Section Orchestrator.

Lemma extracted_year_truthy query :
  truthy (extractYearFromQuery query) = true <->
  extractYearFromQuery query <> None.
Proof.
  destruct (extractYearFromQuery query) as [y|] eqn:E; simpl.
  - apply extracted_year_in_range in E.
    destruct (Z.eqb_spec y 0); [lia|]. split; [discriminate | reflexivity].
  - split; [discriminate | congruence].
Qed.

Lemma extracted_year_falsy query :
  truthy (extractYearFromQuery query) = false <->
  extractYearFromQuery query = None.
Proof.
  pose proof (extracted_year_truthy query) as H.
  destruct (truthy (extractYearFromQuery query));
    destruct (extractYearFromQuery query); intuition congruence.
Qed.

Lemma weighted_keyed chunks queryYear temporalWeight :
  Forall (keyed finalScoreKey)
    (applyTemporalWeighting chunks queryYear temporalWeight).
Proof.
  unfold applyTemporalWeighting. apply List.Forall_map, List.Forall_forall.
  intros c _. unfold keyed, weightChunk. simpl.
  destruct (truthy (year c)); simpl; eauto.
Qed.

Lemma scored_keyed chunks : Forall (keyed scoreKey) chunks.
Proof. apply List.Forall_forall. intros c _. unfold keyed. simpl. eauto. Qed.

(** The working set before the sort, the metadata, and the sort key, by
    cases on the two conditions of the body. *)
Lemma beforeSort_cases input query o :
  let queryYear := extractYearFromQuery query in
  let filtering := truthy queryYear && enableFilteringOf o in
  let weighting := truthy queryYear && enableWeightingOf o in
  let filtered :=
    if filtering
    then filterByYear input (default 0 queryYear) (yearToleranceOf o)
    else input in
  beforeSort input query o =
  ((if weighting
    then applyTemporalWeighting filtered (default 0 queryYear) (temporalWeightOf o)
    else filtered),
   {| queryYear := queryYear;
      temporalFilterApplied := filtering;
      temporalWeightingApplied := weighting;
      originalCount := length input;
      filteredCount := length filtered |}) /\
  afterFilter input query o = filtered.
Proof.
  unfold beforeSort, afterFilter, weightStep, filterStep, initialState.
  cbv zeta.
  destruct (truthy (extractYearFromQuery query) && enableFilteringOf o);
    destruct (truthy (extractYearFromQuery query) && enableWeightingOf o);
    split; reflexivity.
Qed.

Lemma performHybridSearch_unfold input query o :
  performHybridSearch input query o =
  {| chunks :=
       ArraySort.sort
         (byKeyDescending (chooseSortKey (extractYearFromQuery query) o))
         (fst (beforeSort input query o));
     metadata := snd (beforeSort input query o) |}.
Proof.
  unfold performHybridSearch. now destruct (beforeSort input query o).
Qed.

End Orchestrator.

(** C1.  The metadata of [performHybridSearch]: the two flags are true
    exactly when a year was extracted and the corresponding switch is on;
    [originalCount] is the length of the input, [filteredCount] the length
    of the working set after the filtering step, never more than
    [originalCount] and equal to it when filtering is off or no year is
    found; on the empty list the ranked list is empty, both counts are 0
    and [queryYear] is still what the query yields. *)
Theorem performHybridSearch_metadata
    (input : list Chunk) (query : jsstring) (o : Options) :
  let result := performHybridSearch input query o in
  let m := metadata result in
  queryYear m = extractYearFromQuery query /\
  (temporalFilterApplied m = true <->
   extractYearFromQuery query <> None /\ enableFilteringOf o = true) /\
  (temporalWeightingApplied m = true <->
   extractYearFromQuery query <> None /\ enableWeightingOf o = true) /\
  originalCount m = length input /\
  filteredCount m = length (afterFilter input query o) /\
  (filteredCount m <= originalCount m)%nat /\
  (enableFilteringOf o = false \/ extractYearFromQuery query = None ->
   filteredCount m = originalCount m) /\
  (input = [] ->
   chunks result = [] /\ originalCount m = 0%nat /\ filteredCount m = 0%nat /\
   queryYear m = extractYearFromQuery query).
Proof.
  intros result m. unfold m, result.
  rewrite performHybridSearch_unfold.
  destruct (beforeSort_cases input query o) as [E Ef]. cbv zeta in E, Ef.
  rewrite E, Ef. simpl.
  split; [reflexivity|].
  split; [rewrite andb_true_iff, extracted_year_truthy; reflexivity|].
  split; [rewrite andb_true_iff, extracted_year_truthy; reflexivity|].
  split; [reflexivity|].
  split; [reflexivity|].
  split.
  { destruct (truthy _ && enableFilteringOf o); [apply List.filter_length_le | lia]. }
  split.
  { intros [H|H].
    - rewrite H, andb_false_r. reflexivity.
    - apply extracted_year_falsy in H. rewrite H. reflexivity. }
  intros ->. simpl.
  destruct (truthy _ && enableFilteringOf o), (truthy _ && enableWeightingOf o);
    repeat split; reflexivity.
Qed.

Lemma performHybridSearch_metadata_witness :
  filteredCount
    (metadata (performHybridSearch [plain (1 # 2) (Some 2020)]
                 (ofString "Projets futurs") noOptions))
  = originalCount
      (metadata (performHybridSearch [plain (1 # 2) (Some 2020)]
                   (ofString "Projets futurs") noOptions)).
Proof.
  destruct (performHybridSearch_metadata [plain (1 # 2) (Some 2020)]
              (ofString "Projets futurs") noOptions)
    as (_ & _ & _ & _ & _ & _ & H & _).
  apply H. right. reflexivity.
Defined.

(** C5.  The ranked list is a permutation of the working set left by the
    filtering and weighting steps, in descending order of [finalScore] when
    weighting was applied and of [score] otherwise; chunks with equal keys
    keep the relative order they had in the working set. *)
Theorem performHybridSearch_sorted
    (input : list Chunk) (query : jsstring) (o : Options) :
  let result := performHybridSearch input query o in
  let workingSet := fst (beforeSort input query o) in
  let k := if temporalWeightingApplied (metadata result)
           then finalScoreKey else scoreKey in
  Permutation workingSet (chunks result) /\
  StronglySorted (descending k) (chunks result) /\
  forall v,
    List.filter (hasKey k v) (chunks result)
    = List.filter (hasKey k v) workingSet.
Proof.
  intros result workingSet k. unfold k, workingSet, result.
  rewrite performHybridSearch_unfold.
  destruct (beforeSort_cases input query o) as [E _]. cbv zeta in E.
  rewrite E. simpl. unfold chooseSortKey.
  destruct (truthy (extractYearFromQuery query) && enableWeightingOf o).
  - split; [apply sort_perm|]. split; [|intros v; apply sort_stable].
    apply sort_sorted, weighted_keyed.
  - split; [apply sort_perm|]. split; [|intros v; apply sort_stable].
    apply sort_sorted, scored_keyed.
Qed.

(** C10.  The caller receives exactly [filteredCount] chunks: weighting and
    sorting keep the length the filter left, which is [originalCount] when
    the filter did not run. *)
Theorem performHybridSearch_length
    (input : list Chunk) (query : jsstring) (o : Options) :
  let result := performHybridSearch input query o in
  length (chunks result) = filteredCount (metadata result) /\
  (temporalFilterApplied (metadata result) = false ->
   length (chunks result) = originalCount (metadata result)).
Proof.
  intros result. unfold result.
  rewrite performHybridSearch_unfold.
  destruct (beforeSort_cases input query o) as [E _]. cbv zeta in E.
  rewrite E. simpl.
  rewrite <- (Permutation_length (sort_perm _ _)).
  assert (L : forall (b : bool) (l : list Chunk) y w,
             length (if b then applyTemporalWeighting l y w else l) = length l).
  { intros [] l y w; [apply length_map | reflexivity]. }
  rewrite L. split; [reflexivity|]. now intros ->.
Qed.

Lemma performHybridSearch_length_witness :
  length (chunks (performHybridSearch [plain (1 # 2) (Some 2020)]
                    (ofString "Projets futurs") noOptions))
  = originalCount
      (metadata (performHybridSearch [plain (1 # 2) (Some 2020)]
                   (ofString "Projets futurs") noOptions)).
Proof.
  destruct (performHybridSearch_length [plain (1 # 2) (Some 2020)]
              (ofString "Projets futurs") noOptions) as [_ H].
  apply H. reflexivity.
Defined.

(** ** The store: what a call reads, allocates and leaves alone *)

Section StoreFacts.

Lemma bind_run {A B} (m : Heap.M A) (f : A -> Heap.M B) h x h1 :
  m h = Some (x, h1) -> Heap.bind m f h = f x h1.
Proof. unfold Heap.bind. now intros ->. Qed.

Lemma preserved_refl h : Heap.preserved h h.
Proof. split; reflexivity. Qed.

Lemma reads_weaken h h' els cs :
  Heap.objects h ⊆ Heap.objects h' ->
  Heap.reads h els cs -> Heap.reads h' els cs.
Proof.
  intros Hsub H. unfold Heap.reads in *.
  induction H; constructor; auto.
  eapply lookup_weaken; eauto.
Qed.

Lemma run_getArray h a els :
  Heap.arrays h !! a = Some els -> Heap.getArray a h = Some (els, h).
Proof. unfold Heap.getArray. now intros ->. Qed.

Lemma run_newArray h els :
  exists a,
    Heap.newArray els h
    = Some (a, Heap.mkStore (Heap.objects h) (<[a := els]> (Heap.arrays h))) /\
    Heap.arrays h !! a = None.
Proof.
  exists (fresh (dom (Heap.arrays h))). split; [reflexivity|].
  apply not_elem_of_dom, is_fresh.
Qed.

Lemma run_newObject h c :
  exists l,
    Heap.newObject c h
    = Some (l, Heap.mkStore (<[l := c]> (Heap.objects h)) (Heap.arrays h)) /\
    Heap.objects h !! l = None.
Proof.
  exists (fresh (dom (Heap.objects h))). split; [reflexivity|].
  apply not_elem_of_dom, is_fresh.
Qed.

Lemma run_getObjects h els cs :
  Heap.reads h els cs -> Heap.mapM Heap.getObject els h = Some (cs, h).
Proof.
  induction 1 as [|l c els cs Hl _ IH]; simpl; [reflexivity|].
  assert (Hhd : Heap.getObject l h = Some (c, h))
    by (unfold Heap.getObject; now rewrite Hl).
  rewrite (bind_run _ _ _ _ _ Hhd), (bind_run _ _ _ _ _ IH). reflexivity.
Qed.

(** [filter] reads the records, allocates nothing, keeps a subsequence. *)
Lemma run_filterM h els cs targetYear tolerance :
  Heap.reads h els cs ->
  exists kept,
    Heap.filterM
      (fun l => Heap.bind (Heap.getObject l)
                  (fun chunk => Heap.ret (keepChunk targetYear tolerance chunk)))
      els h = Some (kept, h) /\
    Heap.reads h kept (filterByYear cs targetYear tolerance) /\
    sublist kept els.
Proof.
  induction 1 as [|l c els cs Hl _ (kept & Hrun & Hreads & Hsub)]; simpl.
  - exists []. repeat split; constructor.
  - exists (if keepChunk targetYear tolerance c then l :: kept else kept).
    split; [|split].
    + assert (Hhd : Heap.bind (Heap.getObject l)
                      (fun chunk =>
                         Heap.ret (keepChunk targetYear tolerance chunk)) h
                    = Some (keepChunk targetYear tolerance c, h))
        by (unfold Heap.bind, Heap.getObject; now rewrite Hl).
      rewrite (bind_run _ _ _ _ _ Hhd), (bind_run _ _ _ _ _ Hrun). reflexivity.
    + destruct (keepChunk targetYear tolerance c); [constructor|]; assumption.
    + destruct (keepChunk targetYear tolerance c); now constructor.
Qed.

Lemma sameSource_weightChunk queryYear temporalWeight c :
  Heap.sameSource c (weightChunk queryYear temporalWeight c).
Proof. unfold weightChunk. destruct (negb (truthy (year c))); repeat split. Qed.

(** [map] reads each record and allocates its weighted copy.  The records
    read are those of [h0], the store at the start of the loop. *)
Lemma run_weightM_from h0 els : forall h cs queryYear temporalWeight,
  Heap.objects h0 ⊆ Heap.objects h ->
  Heap.reads h0 els cs ->
  exists weighted h',
    Heap.mapM
      (fun l => Heap.bind (Heap.getObject l)
                  (fun chunk =>
                     Heap.newObject (weightChunk queryYear temporalWeight chunk)))
      els h = Some (weighted, h') /\
    Heap.objects h ⊆ Heap.objects h' /\
    Heap.arrays h' = Heap.arrays h /\
    Heap.reads h' weighted (applyTemporalWeighting cs queryYear temporalWeight) /\
    Forall2 (fun l l' =>
               Heap.objects h !! l' = None /\
               exists c, Heap.objects h0 !! l = Some c /\
                         Heap.objects h' !! l'
                         = Some (weightChunk queryYear temporalWeight c))
      els weighted.
Proof.
  induction els as [|l els IH]; intros h cs qy w Hbase Hreads.
  - inversion Hreads; subst. exists [], h. simpl.
    repeat split; try reflexivity; constructor.
  - inversion Hreads as [|? c ? cs' Hl Hrest]; subst.
    destruct (run_newObject h (weightChunk qy w c)) as (l1 & Hnew & Hfresh).
    set (h1 := Heap.mkStore (<[l1 := weightChunk qy w c]> (Heap.objects h))
                 (Heap.arrays h)) in *.
    assert (Hsub1 : Heap.objects h ⊆ Heap.objects h1)
      by (apply insert_subseteq; exact Hfresh).
    destruct (IH h1 cs' qy w ltac:(etrans; eauto) Hrest)
      as (ws & h' & Hrun & Hsub & Harr & Hreads' & Hall).
    exists (l1 :: ws), h'. split; [|split; [|split; [|split]]].
    + simpl.
      assert (Hhd : Heap.bind (Heap.getObject l)
                      (fun chunk => Heap.newObject (weightChunk qy w chunk)) h
                    = Some (l1, h1)).
      { unfold Heap.bind, Heap.getObject.
        rewrite (lookup_weaken _ _ _ _ Hl Hbase). exact Hnew. }
      rewrite (bind_run _ _ _ _ _ Hhd), (bind_run _ _ _ _ _ Hrun). reflexivity.
    + etrans; eauto.
    + rewrite Harr. reflexivity.
    + constructor; [|exact Hreads'].
      eapply lookup_weaken; [|exact Hsub]. apply lookup_insert_eq.
    + constructor.
      * split; [exact Hfresh|]. exists c. split; [exact Hl|].
        eapply lookup_weaken; [|exact Hsub]. apply lookup_insert_eq.
      * eapply Forall2_impl; [exact Hall|]. simpl.
        intros x y (Hy & c0 & Hx & Hy').
        split; [eapply lookup_weaken_None; eauto|]. now exists c0.
Qed.

End StoreFacts.

Lemma reads_elem h els cs l :
  Heap.reads h els cs -> l ∈ els -> exists c, Heap.objects h !! l = Some c.
Proof.
  induction 1 as [|l0 c0 els cs Hl0 _ IH]; intros Hl.
  - inversion Hl.
  - apply elem_of_cons in Hl as [->|Hl]; eauto.
Qed.

Section Tracking.

Variable h : Heap.store.
Variable els : list Heap.loc.

Lemma tracked_start a cs :
  Heap.arrays h !! a = Some els -> Heap.reads h els cs ->
  Heap.tracked h els false a h cs.
Proof.
  intros Ha Hreads. split; [apply preserved_refl|].
  exists els. split; [exact Ha|]. split; [exact Hreads|]. split.
  - apply List.Forall_forall. intros l Hl. apply list_elem_of_In in Hl.
    destruct (reads_elem h els cs l Hreads Hl) as [c Hc].
    exists l, c, c. repeat split; auto.
  - apply List.Forall_forall. intros l Hl. now apply list_elem_of_In.
Qed.

Lemma derivedFrom_weaken h1 h2 l' :
  Heap.objects h1 ⊆ Heap.objects h2 ->
  Heap.derivedFrom h h1 els l' -> Heap.derivedFrom h h2 els l'.
Proof.
  intros Hsub (l & c & c' & Hl & Hc & Hc' & Hsame & Hor).
  exists l, c, c'. repeat split; try apply Hsame; auto.
  eapply lookup_weaken; eauto.
Qed.

Lemma tracked_newArray b hX els' ws :
  Heap.preserved h hX ->
  Heap.reads hX els' ws ->
  Forall (Heap.derivedFrom h hX els) els' ->
  Forall (Heap.returned h els b) els' ->
  exists p hX',
    Heap.newArray els' hX = Some (p, hX') /\
    Heap.arrays h !! p = None /\
    Heap.objects hX' = Heap.objects hX /\
    Heap.tracked h els b p hX' ws.
Proof.
  intros [Hobj Harr] Hreads Hder Hret.
  destruct (run_newArray hX els') as (p & Hrun & Hfresh).
  eexists p, _. split; [exact Hrun|].
  split; [eapply lookup_weaken_None; eauto|].
  split; [reflexivity|].
  split.
  - split; simpl; [exact Hobj|].
    etrans; [exact Harr|]. now apply insert_subseteq.
  - exists els'. simpl. split; [apply lookup_insert_eq|].
    split; [exact Hreads|]. split; [|exact Hret].
    eapply List.Forall_impl; [|exact Hder].
    intros l'. now apply derivedFrom_weaken.
Qed.

(** The spread [[...chunks]] at the head of the body. *)
Lemma tracked_spread a cs :
  Heap.arrays h !! a = Some els -> Heap.reads h els cs ->
  exists p hX,
    Heap.newArray els h = Some (p, hX) /\
    Heap.arrays h !! p = None /\
    Heap.objects hX = Heap.objects h /\
    Heap.tracked h els false p hX cs.
Proof.
  intros Ha Hreads.
  destruct (tracked_start a cs Ha Hreads) as (Hpres & els0 & Ha0 & Hr & Hd & Hret).
  assert (els0 = els) as -> by congruence.
  exact (tracked_newArray false h els cs Hpres Hr Hd Hret).
Qed.

Lemma tracked_filterByYear b p hX ws targetYear tolerance :
  Heap.tracked h els b p hX ws ->
  exists p' hX',
    Heap.filterByYear p targetYear tolerance hX = Some (p', hX') /\
    Heap.arrays h !! p' = None /\
    Heap.objects hX' = Heap.objects hX /\
    Heap.tracked h els b p' hX' (filterByYear ws targetYear tolerance).
Proof.
  intros (Hpres & els' & Hp & Hreads & Hder & Hret).
  destruct (run_filterM hX els' ws targetYear tolerance Hreads)
    as (kept & Hrun & Hkept & Hsub).
  assert (Hin : forall l, l ∈ kept -> In l els').
  { intros l Hl. apply list_elem_of_In. eapply elem_of_sublist; eauto. }
  destruct (tracked_newArray b hX kept
              (filterByYear ws targetYear tolerance) Hpres Hkept)
    as (p' & hX' & Hnew & Hfresh & Hobj & Htr).
  { apply List.Forall_forall. intros l Hl.
    apply list_elem_of_In in Hl.
    exact (proj1 (List.Forall_forall _ _) Hder l (Hin l Hl)). }
  { apply List.Forall_forall. intros l Hl.
    apply list_elem_of_In in Hl.
    exact (proj1 (List.Forall_forall _ _) Hret l (Hin l Hl)). }
  exists p', hX'. split; [|auto].
  unfold Heap.filterByYear.
  rewrite (bind_run _ _ _ _ _ (run_getArray hX p els' Hp)).
  rewrite (bind_run _ _ _ _ _ Hrun). exact Hnew.
Qed.

Lemma sameSource_trans c1 c2 c3 :
  Heap.sameSource c1 c2 -> Heap.sameSource c2 c3 -> Heap.sameSource c1 c3.
Proof.
  unfold Heap.sameSource. intros (?&?&?&?&?) (?&?&?&?&?).
  repeat split; congruence.
Qed.

Lemma tracked_applyTemporalWeighting b p hX ws queryYear temporalWeight :
  Heap.tracked h els b p hX ws ->
  exists p' hX',
    Heap.applyTemporalWeighting p queryYear temporalWeight hX
    = Some (p', hX') /\
    Heap.arrays h !! p' = None /\
    Heap.tracked h els true p' hX'
      (applyTemporalWeighting ws queryYear temporalWeight).
Proof.
  intros (Hpres & els' & Hp & Hreads & Hder & Hret).
  destruct (run_weightM_from hX els' hX ws queryYear temporalWeight
              ltac:(reflexivity) Hreads)
    as (weighted & h1 & Hrun & Hsub & Harr & Hreads1 & Hall).
  assert (Hpres1 : Heap.preserved h h1).
  { destruct Hpres as [Ho Ha]. split; [etrans; eauto|]. now rewrite Harr. }
  assert (Hnone : forall l', In l' weighted -> Heap.objects h !! l' = None).
  { intros l' Hl'. apply list_elem_of_In, list_elem_of_lookup in Hl' as [i Hi].
    destruct (Forall2_lookup_r _ _ _ _ _ Hall Hi) as (l & _ & Hfresh & _).
    eapply lookup_weaken_None; [exact Hfresh | apply Hpres]. }
  destruct (tracked_newArray true h1 weighted
              (applyTemporalWeighting ws queryYear temporalWeight)
              Hpres1 Hreads1)
    as (p' & hX' & Hnew & Hfresh & Hobj & Htr).
  { apply List.Forall_forall. intros l' Hl'.
    pose proof (Hnone l' Hl') as Hl'none.
    apply list_elem_of_In, list_elem_of_lookup in Hl' as [i Hi].
    destruct (Forall2_lookup_r _ _ _ _ _ Hall Hi)
      as (l & Hli & _ & c & Hc & Hc').
    assert (Hl : In l els').
    { apply list_elem_of_In, list_elem_of_lookup. eauto. }
    destruct (proj1 (List.Forall_forall _ _) Hder l Hl)
      as (l0 & c0 & c1 & Hl0 & Hc0 & Hc1 & Hsame & _).
    assert (c1 = c) as -> by congruence.
    exists l0, c0, (weightChunk queryYear temporalWeight c).
    repeat split; try apply (sameSource_trans c0 c _ Hsame (sameSource_weightChunk _ _ c)); auto. }
  { apply List.Forall_forall. intros l' Hl'. simpl. now apply Hnone. }
  exists p', hX'. split; [|auto].
  unfold Heap.applyTemporalWeighting.
  rewrite (bind_run _ _ _ _ _ (run_getArray hX p els' Hp)).
  rewrite (bind_run _ _ _ _ _ Hrun). exact Hnew.
Qed.

Lemma tracked_sortInPlace b p hX ws comparefn :
  Heap.arrays h !! p = None ->
  Heap.tracked h els b p hX ws ->
  exists hX',
    Heap.sortInPlace p comparefn hX = Some (tt, hX') /\
    Heap.objects hX' = Heap.objects hX /\
    Heap.tracked h els b p hX' (ArraySort.sort comparefn ws).
Proof.
  intros Hfresh ([Hobj Harr] & els' & Hp & Hreads & Hder & Hret).
  set (sorted := ArraySort.sort (fun x y => comparefn (snd x) (snd y))
                   (zip els' ws)).
  assert (Hlen : length els' = length ws) by (eapply Forall2_length; eauto).
  assert (Hperm : Permutation (zip els' ws) sorted) by apply sort_perm.
  assert (Hpairs : Forall (fun lc => Heap.objects hX !! lc.1 = Some lc.2) sorted).
  { eapply Permutation_Forall; [exact Hperm|].
    clear - Hreads. induction Hreads; simpl; constructor; auto. }
  assert (Hfst : Permutation els' (List.map fst sorted)).
  { rewrite <- Hperm. change (List.map fst ?l) with (fst <$> l).
    rewrite fst_zip; [reflexivity | lia]. }
  assert (Hsnd : List.map snd sorted = ArraySort.sort comparefn ws).
  { unfold sorted. rewrite (sort_map comparefn snd).
    change (List.map snd ?l) with (snd <$> l).
    rewrite snd_zip; [reflexivity | lia]. }
  exists (Heap.mkStore (Heap.objects hX)
            (<[p := List.map fst sorted]> (Heap.arrays hX))).
  split; [|split; [reflexivity|]].
  - unfold Heap.sortInPlace.
    rewrite (bind_run _ _ _ _ _ (run_getArray hX p els' Hp)).
    rewrite (bind_run _ _ _ _ _ (run_getObjects hX els' ws Hreads)).
    fold sorted. unfold Heap.setArray. rewrite Hp. reflexivity.
  - split.
    + split; simpl; [exact Hobj|]. now apply insert_subseteq_r.
    + exists (List.map fst sorted). simpl.
      split; [apply lookup_insert_eq|]. split; [|split].
      * rewrite <- Hsnd. unfold Heap.reads. simpl.
        clear - Hpairs. induction Hpairs; simpl; constructor; auto.
      * eapply Permutation_Forall; [exact Hfst|]. exact Hder.
      * eapply Permutation_Forall; [exact Hfst|]. exact Hret.
Qed.

End Tracking.

Section Run.

Variable h : Heap.store.
Variable els : list Heap.loc.

Lemma run_arrayLength hX p els' :
  Heap.arrays hX !! p = Some els' ->
  Heap.arrayLength p hX = Some (length els', hX).
Proof.
  intros Hp. unfold Heap.arrayLength.
  now rewrite (bind_run _ _ _ _ _ (run_getArray hX p els' Hp)).
Qed.

(** The conditional around [filterByYear]. *)
Lemma run_filterBlock (cond b : bool) p hX ws m targetYear tolerance :
  Heap.arrays h !! p = None ->
  Heap.tracked h els b p hX ws ->
  exists p' hX',
    (if cond then
       Heap.bind (Heap.filterByYear p targetYear tolerance)
         (fun processedChunks =>
            Heap.bind (Heap.arrayLength processedChunks)
              (fun count =>
                 Heap.ret (processedChunks, markFiltered m count)))
     else Heap.ret (p, m)) hX
    = Some ((p',
             if cond
             then markFiltered m
                    (length (filterByYear ws targetYear tolerance))
             else m), hX') /\
    Heap.arrays h !! p' = None /\
    Heap.tracked h els b p' hX'
      (if cond then filterByYear ws targetYear tolerance else ws).
Proof.
  intros Hfresh Htr. destruct cond.
  - destruct (tracked_filterByYear h els b p hX ws targetYear tolerance Htr)
      as (p' & hX' & Hrun & Hfresh' & _ & Htr').
    exists p', hX'. split; [|auto].
    rewrite (bind_run _ _ _ _ _ Hrun).
    destruct Htr' as (_ & kept & Hp' & Hreads & _).
    rewrite (bind_run _ _ _ _ _ (run_arrayLength hX' p' kept Hp')).
    unfold Heap.ret. now rewrite (Forall2_length _ _ _ Hreads).
  - exists p, hX. auto.
Qed.

(** The conditional around [applyTemporalWeighting]. *)
Lemma run_weightBlock (cond : bool) p hX ws m queryYear temporalWeight :
  Heap.arrays h !! p = None ->
  Heap.tracked h els false p hX ws ->
  exists p' hX',
    (if cond then
       Heap.bind (Heap.applyTemporalWeighting p queryYear temporalWeight)
         (fun processedChunks =>
            Heap.ret (processedChunks, markWeighted m))
     else Heap.ret (p, m)) hX
    = Some ((p', if cond then markWeighted m else m), hX') /\
    Heap.arrays h !! p' = None /\
    Heap.tracked h els cond p' hX'
      (if cond then applyTemporalWeighting ws queryYear temporalWeight
       else ws).
Proof.
  intros Hfresh Htr. destruct cond.
  - destruct (tracked_applyTemporalWeighting h els false p hX ws
                queryYear temporalWeight Htr)
      as (p' & hX' & Hrun & Hfresh' & Htr').
    exists p', hX'. split; [|auto].
    now rewrite (bind_run _ _ _ _ _ Hrun).
  - exists p, hX. auto.
Qed.

(** The store-level search computes the value-level one, in records
    derived from the incoming ones, and preserves the store it was given. *)
Lemma performHybridSearch_run a cs query o :
  Heap.arrays h !! a = Some els -> Heap.reads h els cs ->
  exists p h',
    Heap.performHybridSearch a query o h
    = Some ((p, metadata (performHybridSearch cs query o)), h') /\
    Heap.arrays h !! p = None /\
    Heap.tracked h els
      (temporalWeightingApplied (metadata (performHybridSearch cs query o)))
      p h' (chunks (performHybridSearch cs query o)).
Proof.
  intros Ha Hreads.
  destruct (tracked_spread h els a cs Ha Hreads)
    as (p0 & h0 & Hrun0 & Hfresh0 & _ & Htr0).
  set (qy := extractYearFromQuery query).
  set (m0 := {| queryYear := qy;
                temporalFilterApplied := false;
                temporalWeightingApplied := false;
                originalCount := length els;
                filteredCount := length els |}).
  destruct (run_filterBlock (truthy qy && enableFilteringOf o) false
              p0 h0 cs m0 (default 0 qy) (yearToleranceOf o) Hfresh0 Htr0)
    as (p1 & h1 & Hrun1 & Hfresh1 & Htr1).
  match type of Hrun1 with _ = Some (_, ?m, _) => set (m1 := m) in * end.
  destruct (run_weightBlock (truthy qy && enableWeightingOf o)
              p1 h1 _ m1
              (default 0 qy) (temporalWeightOf o) Hfresh1 Htr1)
    as (p2 & h2 & Hrun2 & Hfresh2 & Htr2).
  destruct (tracked_sortInPlace h els _ p2 h2 _
              (byKeyDescending (chooseSortKey qy o)) Hfresh2 Htr2)
    as (h3 & Hrun3 & _ & Htr3).
  rewrite performHybridSearch_unfold.
  destruct (beforeSort_cases cs query o) as [E _]. cbv zeta in E.
  rewrite E. clear E. simpl. fold qy.
  assert (Hlen : length els = length cs) by (eapply Forall2_length; eauto).
  exists p2, h3. split; [|split; [exact Hfresh2|]].
  - unfold Heap.performHybridSearch. cbv zeta. fold qy.
    rewrite (bind_run _ _ _ _ _ (run_getArray h a els Ha)).
    rewrite (bind_run _ _ _ _ _ Hrun0).
    fold m0. rewrite (bind_run _ _ _ _ _ Hrun1).
    rewrite (bind_run _ _ _ _ _ Hrun2).
    rewrite (bind_run _ _ _ _ _ Hrun3).
    unfold Heap.ret. do 3 f_equal.
    unfold m1, m0. rewrite Hlen.
    destruct (truthy qy && enableFilteringOf o),
             (truthy qy && enableWeightingOf o); reflexivity.
  - exact Htr3.
Qed.

End Run.

Section StoreTheorems.

Lemma holds_preserved h h' a cs :
  Heap.preserved h h' -> Heap.holds h a cs -> Heap.holds h' a cs.
Proof.
  intros [Hobj Harr] (els & Ha & Hreads). exists els. split.
  - eapply lookup_weaken; eauto.
  - eapply reads_weaken; eauto.
Qed.

Lemma tracked_holds h els b p h' ws :
  Heap.tracked h els b p h' ws -> Heap.holds h' p ws.
Proof. intros (_ & els' & Hp & Hreads & _). now exists els'. Qed.

Lemma performHybridSearch_holds h a cs query o :
  Heap.holds h a cs ->
  exists p h',
    Heap.performHybridSearch a query o h
    = Some ((p, metadata (performHybridSearch cs query o)), h') /\
    Heap.preserved h h' /\
    Heap.holds h' p (chunks (performHybridSearch cs query o)).
Proof.
  intros (els & Ha & Hreads).
  destruct (performHybridSearch_run h els a cs query o Ha Hreads)
    as (p & h' & Hrun & _ & Htr).
  exists p, h'. split; [exact Hrun|]. split; [apply Htr|].
  eapply tracked_holds; eauto.
Qed.

End StoreTheorems.

(** C8.  [performHybridSearch] is deterministic.  Two calls whose chunk
    arrays hold identical chunks, with the same query and options, return
    identical metadata and arrays holding identical ranked chunks, in
    whatever stores the calls are made; the first call leaves its argument
    as it was, so this holds in particular for a second call on the same
    array after the first. *)
Theorem performHybridSearch_deterministic
    (h1 h2 : Heap.store) (a1 a2 : Heap.loc) (cs : list Chunk)
    (query : jsstring) (o : Options) :
  Heap.holds h1 a1 cs -> Heap.holds h2 a2 cs ->
  exists p1 p2 m ranked h1' h2',
    Heap.performHybridSearch a1 query o h1 = Some ((p1, m), h1') /\
    Heap.performHybridSearch a2 query o h2 = Some ((p2, m), h2') /\
    Heap.holds h1' p1 ranked /\ Heap.holds h2' p2 ranked /\
    Heap.holds h1' a1 cs /\
    exists p3 h3,
      Heap.performHybridSearch a1 query o h1' = Some ((p3, m), h3) /\
      Heap.holds h3 p3 ranked.
Proof.
  intros H1 H2.
  destruct (performHybridSearch_holds h1 a1 cs query o H1)
    as (p1 & h1' & Hrun1 & Hpres1 & Hout1).
  destruct (performHybridSearch_holds h2 a2 cs query o H2)
    as (p2 & h2' & Hrun2 & _ & Hout2).
  pose proof (holds_preserved h1 h1' a1 cs Hpres1 H1) as H1'.
  destruct (performHybridSearch_holds h1' a1 cs query o H1')
    as (p3 & h3 & Hrun3 & _ & Hout3).
  exists p1, p2, (metadata (performHybridSearch cs query o)),
    (chunks (performHybridSearch cs query o)), h1', h2'.
  repeat (split; [assumption|]). exists p3, h3. now split.
Qed.

Lemma performHybridSearch_deterministic_witness :
  exists p1 p2 m ranked h1' h2',
    Heap.performHybridSearch 1%positive (ofString "projets pour 2025")
      noOptions Heap.twoChunks = Some ((p1, m), h1') /\
    Heap.performHybridSearch 1%positive (ofString "projets pour 2025")
      noOptions Heap.twoChunks = Some ((p2, m), h2') /\
    Heap.holds h1' p1 ranked /\ Heap.holds h2' p2 ranked /\
    Heap.holds h1' 1%positive twoChunkValues /\
    exists p3 h3,
      Heap.performHybridSearch 1%positive (ofString "projets pour 2025")
        noOptions h1' = Some ((p3, m), h3) /\
      Heap.holds h3 p3 ranked.
Proof.
  apply (performHybridSearch_deterministic Heap.twoChunks Heap.twoChunks
           1%positive 1%positive twoChunkValues);
    (exists [1%positive; 2%positive]; split;
     [reflexivity | repeat constructor]).
Defined.

(** C9, as stated, fails on the copies: the records [filterByYear]
    returns, and those the search returns for a query without a year, are
    the incoming records themselves.  The result array holds the locations
    the argument array holds, none of them is a record the store did not
    have, and the store has no new record. *)
Lemma filterByYear_returns_incoming :
  (exists p h',
      Heap.filterByYear 1%positive 2025 1 Heap.twoChunks = Some (p, h') /\
      Heap.arrays h' !! p = Some [1%positive; 2%positive] /\
      Heap.objects h' = Heap.objects Heap.twoChunks) /\
  (exists p m h',
      Heap.performHybridSearch 1%positive (ofString "projets") noOptions
        Heap.twoChunks
      = Some ((p, m), h') /\
      Heap.arrays h' !! p = Some [2%positive; 1%positive] /\
      Heap.objects h' = Heap.objects Heap.twoChunks) /\
  Forall (fun l =>
            ~ Heap.returned Heap.twoChunks [1%positive; 2%positive] true l)
    [1%positive; 2%positive].
Proof.
  split; [|split].
  - eexists _, _. split; [vm_compute; reflexivity|]. split; reflexivity.
  - eexists _, _, _. split; [vm_compute; reflexivity|]. split; reflexivity.
  - repeat constructor; intros H; vm_compute in H; discriminate.
Qed.

(** C9.  The core does not mutate what it is given.  After [filterByYear],
    [applyTemporalWeighting] or [performHybridSearch] ran on an array of
    chunk records, every record and array of the store before the call is
    still there with the same contents (so text, filename and page of the
    incoming chunks are as they were), the incoming array still holds the
    same chunks, and every returned record comes from an incoming one with
    the same text, filename, page, score and year: it is that record,
    unchanged, or a record the store did not have.  Weighting returns new
    records only; without weighting the records returned are incoming
    ones. *)
Theorem core_does_not_mutate
    (h : Heap.store) (a : Heap.loc) (els : list Heap.loc) (cs : list Chunk) :
  Heap.arrays h !! a = Some els -> Heap.reads h els cs ->
  (forall targetYear tolerance,
      exists p h',
        Heap.filterByYear a targetYear tolerance h = Some (p, h') /\
        Heap.holds h' a cs /\
        Heap.tracked h els false p h'
          (filterByYear cs targetYear tolerance)) /\
  (forall queryYear temporalWeight,
      exists p h',
        Heap.applyTemporalWeighting a queryYear temporalWeight h
        = Some (p, h') /\
        Heap.holds h' a cs /\
        Heap.tracked h els true p h'
          (applyTemporalWeighting cs queryYear temporalWeight)) /\
  (forall query o,
      exists p m h',
        Heap.performHybridSearch a query o h = Some ((p, m), h') /\
        Heap.holds h' a cs /\
        Heap.tracked h els (temporalWeightingApplied m) p h'
          (chunks (performHybridSearch cs query o))).
Proof.
  intros Ha Hreads.
  assert (Hholds : Heap.holds h a cs) by (now exists els).
  pose proof (tracked_start h els a cs Ha Hreads) as Htr.
  split; [|split].
  - intros targetYear tolerance.
    destruct (tracked_filterByYear h els false a h cs targetYear tolerance Htr)
      as (p & h' & Hrun & _ & _ & Htr').
    exists p, h'. split; [exact Hrun|]. split; [|exact Htr'].
    eapply holds_preserved; [apply Htr' | exact Hholds].
  - intros queryYear temporalWeight.
    destruct (tracked_applyTemporalWeighting h els false a h cs
                queryYear temporalWeight Htr)
      as (p & h' & Hrun & _ & Htr').
    exists p, h'. split; [exact Hrun|]. split; [|exact Htr'].
    eapply holds_preserved; [apply Htr' | exact Hholds].
  - intros query o.
    destruct (performHybridSearch_run h els a cs query o Ha Hreads)
      as (p & h' & Hrun & _ & Htr').
    exists p, (metadata (performHybridSearch cs query o)), h'.
    split; [exact Hrun|]. split; [|exact Htr'].
    eapply holds_preserved; [apply Htr' | exact Hholds].
Qed.

Lemma core_does_not_mutate_witness :
  exists p h',
    Heap.filterByYear 1%positive 2025 0 Heap.twoChunks = Some (p, h') /\
    Heap.holds h' 1%positive twoChunkValues /\
    Heap.tracked Heap.twoChunks [1%positive; 2%positive] false p h'
      (filterByYear twoChunkValues 2025 0).
Proof.
  destruct (core_does_not_mutate Heap.twoChunks 1%positive
              [1%positive; 2%positive] twoChunkValues)
    as [H _].
  - reflexivity.
  - repeat constructor.
  - exact (H 2025 0).
Defined.

(** ** The scenarios of the specification, run on the embedding *)

Section Scenarios.

(** A query naming 2025: the 2020 chunk is filtered out, the 2025 chunk
    gets the final score 0.7 * 0.78 + 0.3 * 1 = 0.846. *)
Example scenario_year_in_query :
  let result :=
    performHybridSearch twoDated
      (ofString "Quels sont les projets pour 2025?") noOptions in
  metadata result = mkSearchMetadata (Some 2025) true true 2 1 /\
  List.map year (chunks result) = [Some 2025] /\
  Forall2 (fun final expected => exists x, final = Some x /\ (x == expected)%Q)
    (List.map finalScore (chunks result)) [846 # 1000].
Proof.
  split; [reflexivity|]. split; [reflexivity|].
  constructor; [|constructor]. eexists. split; reflexivity.
Qed.

(** A query without a year: nothing is filtered or weighted, the ranking
    is by raw score. *)
Example scenario_no_year :
  let result :=
    performHybridSearch twoDated (ofString "Projets futurs") noOptions in
  metadata result = mkSearchMetadata None false false 2 2 /\
  chunks result
  = [plain (82 # 100) (Some 2020); plain (78 # 100) (Some 2025)].
Proof. split; reflexivity. Qed.

Example scenario_proximity :
  (calculateTemporalProximity 2025 2025 == 1)%Q /\
  (calculateTemporalProximity 2025 2023 == 64 # 100)%Q /\
  (calculateTemporalProximity 2025 2020 == 32768 # 100000)%Q.
Proof. repeat split; reflexivity. Qed.

(** An undated chunk passes the filter and keeps its score. *)
Example scenario_undated :
  filterByYear [plain (1 # 2) None] 2025 2 = [plain (1 # 2) None] /\
  List.map finalScore (applyTemporalWeighting [plain (1 # 2) None] 2025 (3 # 10))
  = [Some (1 # 2)].
Proof. split; reflexivity. Qed.

Example scenario_empty (query : jsstring) :
  chunks (performHybridSearch [] query noOptions) = [] /\
  originalCount (metadata (performHybridSearch [] query noOptions)) = 0%nat /\
  filteredCount (metadata (performHybridSearch [] query noOptions)) = 0%nat.
Proof.
  rewrite performHybridSearch_unfold.
  destruct (beforeSort_cases [] query noOptions) as [E _]. cbv zeta in E.
  rewrite E. simpl.
  destruct (truthy (extractYearFromQuery query)); repeat split; reflexivity.
Qed.

(** The cue and article patterns only matter when the first four digits of
    the query are out of range. *)
Example scenario_patterns :
  extractYearFromQuery (ofString "budget 2500000 en 2024") = Some 2024 /\
  extractYearFromQuery (ofString "2500 le 2024") = Some 2024 /\
  extractYearFromQuery (ofString "2500 " ++ annee ++ ofString " 2024")
  = Some 2024 /\
  extractYearFromQuery (ofString "2500 2024") = None /\
  extractYearFromQuery (ofString "Projets futurs") = None.
Proof. repeat split; reflexivity. Qed.

(** On the store: without a year in the query the result array holds the
    two incoming records themselves; with one it holds two new records and
    the incoming ones are as they were. *)
Example scenario_store :
  (exists h',
      Heap.performHybridSearch 1%positive (ofString "projets") noOptions
        Heap.twoChunks
      = Some ((2%positive, mkSearchMetadata None false false 2 2), h') /\
      Heap.arrays h' !! 2%positive = Some [2%positive; 1%positive] /\
      Heap.arrays h' !! 1%positive = Some [1%positive; 2%positive] /\
      Heap.objects h' = Heap.objects Heap.twoChunks) /\
  (exists h',
      Heap.performHybridSearch 1%positive (ofString "projets pour 2025")
        noOptions Heap.twoChunks
      = Some ((4%positive, mkSearchMetadata (Some 2025) true true 2 2), h') /\
      Heap.arrays h' !! 4%positive = Some [3%positive; 4%positive] /\
      Heap.arrays h' !! 1%positive = Some [1%positive; 2%positive] /\
      Heap.objects h' !! 1%positive = Some (plain (78 # 100) (Some 2025)) /\
      Heap.objects h' !! 2%positive = Some (plain (82 # 100) (Some 2024))).
Proof.
  split; eexists; (split; [vm_compute; reflexivity|]); repeat split.
Qed.

End Scenarios.

(** * Further properties of the temporal search *)

(** ** The extracted year is written in the query *)

Section YearInQuery.

Lemma matchTimes_inv n p s rest :
  matchTimes n p s = Some rest ->
  exists d, s = d ++ rest /\ length d = n /\ forallb p d = true.
Proof.
  revert s. induction n as [|n IH]; intros s H.
  - destruct s; injection H as <-; now exists [].
  - destruct s as [|c s]; [discriminate|]. simpl in H.
    destruct (p c) eqn:Hc; [|discriminate].
    destruct (IH s H) as (d & -> & Hlen & Hd).
    exists (c :: d). simpl. rewrite Hc, Hlen, Hd. auto.
Qed.

Lemma firstMatch_infix r s m :
  firstMatch r s = Some m -> exists pre post, s = pre ++ m ++ post.
Proof.
  revert m. induction s as [|c s IH]; intros m; cbn [firstMatch].
  - destruct (matchAt r [] Some) as [rest|]; [|discriminate].
    intros [= <-]. now exists [], [].
  - destruct (matchAt r (c :: s) Some) as [rest|].
    + intros [= <-]. exists [], (skipn (length (c :: s) - length rest) (c :: s)).
      symmetry. apply firstn_skipn.
    + intros H. destruct (IH m H) as (pre & post & ->).
      now exists (c :: pre), post.
Qed.

Lemma firstMatch_fourDigits_inv s m :
  firstMatch fourDigits s = Some m ->
  length m = 4%nat /\ forallb isDigit m = true.
Proof.
  assert (Hat : forall t rest,
             matchAt fourDigits t Some = Some rest ->
             length (firstn (length t - length rest) t) = 4%nat /\
             forallb isDigit (firstn (length t - length rest) t) = true).
  { intros t rest H. unfold fourDigits, matchAt in H.
    destruct (matchTimes 4 isDigit t) as [t'|] eqn:E; [|discriminate].
    injection H as ->.
    destruct (matchTimes_inv _ _ _ _ E) as (d & -> & Hlen & Hd).
    rewrite length_app.
    replace (length d + length rest - length rest)%nat with (length d) by lia.
    rewrite firstn_app, Nat.sub_diag, firstn_all. simpl. rewrite app_nil_r.
    auto. }
  revert m. induction s as [|c s IH]; intros m; cbn [firstMatch].
  - discriminate.
  - destruct (matchAt fourDigits (c :: s) Some) as [rest|] eqn:E.
    + intros [= <-]. exact (Hat (c :: s) rest E).
    + apply IH.
Qed.

Lemma tryPattern_in_query pattern query year :
  tryPattern pattern query = Some year ->
  exists pre d post,
    query = pre ++ d ++ post /\ length d = 4%nat /\
    forallb isDigit d = true /\ parseDigits 0 d = year.
Proof.
  unfold tryPattern.
  destruct (firstMatch pattern query) as [m0|] eqn:E0; [|discriminate].
  destruct (firstMatch fourDigits m0) as [ym|] eqn:E1; [|discriminate].
  destruct (parseInt ym) as [y|] eqn:E2; [|discriminate].
  destruct ((1900 <=? y) && (y <=? 2100)); [|discriminate].
  intros [= <-].
  destruct (firstMatch_infix _ _ _ E0) as (pre0 & post0 & ->).
  destruct (firstMatch_infix _ _ _ E1) as (pre1 & post1 & ->).
  destruct (firstMatch_fourDigits_inv _ _ E1) as [Hlen Hd].
  exists (pre0 ++ pre1), ym, (post1 ++ post0).
  split; [now rewrite <- !app_assoc|]. split; [exact Hlen|].
  split; [exact Hd|].
  unfold parseInt in E2. destruct ym as [|c ym]; [discriminate|].
  destruct (isDigit c); [now injection E2 | discriminate].
Qed.

End YearInQuery.

(** X1.  A year returned by [extractYearFromQuery] is written in the query:
    the query contains four consecutive digits whose decimal value is the
    year. *)
Theorem extractYearFromQuery_in_query (query : jsstring) (year : Z) :
  extractYearFromQuery query = Some year ->
  exists pre d post,
    query = pre ++ d ++ post /\ length d = 4%nat /\
    forallb isDigit d = true /\ parseDigits 0 d = year.
Proof.
  intros E. apply firstYear_priority in E as (i & p & _ & Hp & _).
  exact (tryPattern_in_query p query year Hp).
Qed.

Lemma extractYearFromQuery_in_query_witness :
  exists pre d post,
    ofString "budget 2500000 en 2024" = pre ++ d ++ post /\
    length d = 4%nat /\ forallb isDigit d = true /\ parseDigits 0 d = 2024.
Proof.
  apply (extractYearFromQuery_in_query (ofString "budget 2500000 en 2024")).
  reflexivity.
Defined.

(** ** How filtering and weighting compose *)

Section Composition.

Lemma keepChunk_tolerance target tolerance tolerance' chunk :
  tolerance <= tolerance' ->
  keepChunk target tolerance chunk = true ->
  keepChunk target tolerance' chunk = true.
Proof.
  intros Hle. unfold keepChunk.
  destruct (negb (truthy (year chunk))); [reflexivity|].
  cbv zeta. rewrite !Z.leb_le. lia.
Qed.

Lemma filter_sublist_impl {A} (f g : A -> bool) (l : list A) :
  (forall x, f x = true -> g x = true) ->
  sublist (List.filter f l) (List.filter g l).
Proof.
  intros Hfg. induction l as [|x l IH]; simpl; [constructor|].
  destruct (f x) eqn:Hf.
  - rewrite (Hfg x Hf). now constructor.
  - destruct (g x); [now constructor | exact IH].
Qed.

Lemma keepChunk_weightChunk target tolerance queryYear temporalWeight chunk :
  keepChunk target tolerance (weightChunk queryYear temporalWeight chunk)
  = keepChunk target tolerance chunk.
Proof.
  unfold keepChunk, weightChunk.
  destruct (negb (truthy (year chunk))) eqn:E; simpl; now rewrite E.
Qed.

Lemma weightChunk_again q1 w1 q2 w2 chunk :
  weightChunk q2 w2 (weightChunk q1 w1 chunk) = weightChunk q2 w2 chunk.
Proof.
  unfold weightChunk.
  destruct (negb (truthy (year chunk))) eqn:E; simpl; now rewrite E.
Qed.

End Composition.

(** X2.  Widening the tolerance only adds chunks: the list kept with a
    tolerance is a subsequence of the list kept with any larger one.  With a
    negative tolerance only the chunks the filter counts as undated are
    kept. *)
Theorem filterByYear_tolerance
    (chunks : list Chunk) (targetYear tolerance tolerance' : Z) :
  (tolerance <= tolerance' ->
   sublist (filterByYear chunks targetYear tolerance)
     (filterByYear chunks targetYear tolerance')) /\
  (tolerance < 0 ->
   filterByYear chunks targetYear tolerance
   = List.filter (fun chunk => negb (dated chunk)) chunks).
Proof.
  split.
  - intros Hle. apply filter_sublist_impl. intros c.
    now apply keepChunk_tolerance.
  - intros Hneg. apply filter_ext. intros c. unfold keepChunk, dated.
    destruct (negb (truthy (year c))); [reflexivity|]. cbv zeta.
    apply Z.leb_gt. lia.
Qed.

Lemma filterByYear_tolerance_witness :
  sublist (filterByYear twoDated 2025 2) (filterByYear twoDated 2025 5).
Proof.
  destruct (filterByYear_tolerance twoDated 2025 2 5) as [H _].
  apply H. lia.
Defined.

(** X3.  The two steps of the search commute: weighting the filtered list
    gives the same list as filtering the weighted one, because weighting
    copies the year it reads. *)
Theorem filter_weight_commute
    (chunks : list Chunk) (queryYear targetYear tolerance : Z)
    (temporalWeight : Q) :
  applyTemporalWeighting (filterByYear chunks targetYear tolerance)
    queryYear temporalWeight
  = filterByYear (applyTemporalWeighting chunks queryYear temporalWeight)
      targetYear tolerance.
Proof.
  unfold applyTemporalWeighting, filterByYear.
  induction chunks as [|c cs IH]; [reflexivity|]. simpl.
  rewrite keepChunk_weightChunk.
  destruct (keepChunk targetYear tolerance c); simpl; now rewrite IH.
Qed.

(** X4.  Weighting never compounds.  Weighting an already weighted list,
    with the same or another query year and weight, gives what weighting the
    original list with the later year and weight gives: the blend always
    starts from the untouched [score].  In particular weighting twice is
    weighting once. *)
Theorem applyTemporalWeighting_again
    (chunks : list Chunk) (q1 q2 : Z) (w1 w2 : Q) :
  applyTemporalWeighting (applyTemporalWeighting chunks q1 w1) q2 w2
  = applyTemporalWeighting chunks q2 w2.
Proof.
  unfold applyTemporalWeighting. rewrite List.map_map.
  apply List.map_ext. intros c. apply weightChunk_again.
Qed.

(** ** The blended score *)

Section Blend.

Local Open Scope Q_scope.


End Blend.

(** ** The blended score on doubles *)

Section BlendRounded.

Import Binary64.
Local Open Scope Q_scope.

Lemma roundHalfEven_upper y : inject_Z (roundHalfEven y) <= y + (1 # 2).
Proof.
  pose proof (Qfloor_le y) as Hf.
  destruct (roundHalfEven_cases y) as [-> | [-> Hr]].
  - lra.
  - rewrite inject_Z_plus. change (inject_Z 1) with 1. lra.
Qed.

(** Rounding a value of [0, 1] adds at most a quarter of the spacing of
    the doubles just below 1. *)
Lemma round_error x : 0 <= x -> x <= 1 -> round x <= x + pow2 (-54).
Proof.
  intros H0 H1. destruct (Qlt_le_dec x 1) as [Hlt|Hge].
  - destruct (Qlt_le_dec 0 x) as [Hp|Hz].
    + rewrite (round_positive x Hp). unfold roundPositive.
      set (e := ulpExponent x).
      assert (He : (e <= -53)%Z).
      { destruct (log2floor_spec x Hp) as [L _].
        assert (log2floor x < 0)%Z.
        { destruct (Z.lt_ge_cases (log2floor x) 0) as [H|H]; [exact H|].
          exfalso. apply (Qlt_irrefl x). apply (Qlt_le_trans _ _ _ Hlt).
          apply (Qle_trans _ (pow2 (log2floor x))); [|exact L].
          change 1 with (pow2 0). now apply pow2_le. }
        unfold e, ulpExponent. lia. }
      apply (Qle_trans _ ((x * pow2 (- e) + (1 # 2)) * pow2 e)).
      * apply Qmult_le_compat_r; [|apply Qlt_le_weak, pow2_pos].
        apply roundHalfEven_upper.
      * rewrite Qmult_plus_distr_l, <- Qmult_assoc,
          (Qmult_comm (pow2 (- e))), pow2_cancel, Qmult_1_r.
        apply Qplus_le_r.
        change (1 # 2) with (pow2 (-1)). rewrite <- pow2_plus.
        apply pow2_le. lia.
    + assert (E : Qnum x = 0%Z).
      { unfold Qle in H0, Hz. simpl in H0, Hz. lia. }
      unfold round. rewrite E.
      apply (Qle_trans _ (x + 0)); [lra|].
      apply Qplus_le_r, Qlt_le_weak, pow2_pos.
  - apply (Qle_trans _ (round 1)); [now apply round_mono|].
    apply (Qle_trans _ 1); [vm_compute; discriminate|].
    apply (Qle_trans _ (x + 0)); [lra|].
    apply Qplus_le_r, Qlt_le_weak, pow2_pos.
Qed.

Lemma round_unit x : 0 <= x -> x <= 1 -> 0 <= round x <= 1.
Proof.
  intros H0 H1. split; [now apply round_nonneg|].
  apply (Qle_trans _ (round 1)); [now apply round_mono|].
  vm_compute. discriminate.
Qed.

Lemma proximity_unit queryYear documentYear :
  0 <= Binary64.calculateTemporalProximity queryYear documentYear <= 1.
Proof.
  rewrite proximity_unfold. destruct decayBase_range as [Hb Hb1].
  pose proof (Z.abs_nonneg (queryYear - documentYear)) as Hd. split.
  - apply round_nonneg, Qpower_0_le. now apply Qlt_le_weak.
  - apply (Qle_trans _ (round (decayBase ^ 0))).
    + apply proximity_antitone. lia.
    + vm_compute. discriminate.
Qed.

(** The blend of two values of [0, 1] with a weight of [0, 1] that is a
    double stays in [0, 1], roundings included. *)
Lemma blend_unit (w s t : Q) :
  0 <= w <= 1 -> representable w -> 0 <= s <= 1 -> 0 <= t <= 1 ->
  0 <= add (mul (sub 1 w) s) (mul w t) <= 1.
Proof.
  intros [Hw0 Hw1] Hw [Hs0 Hs1] [Ht0 Ht1]. unfold add, mul, sub.
  set (u := round (1 - w)).
  assert (Hu : 0 <= u <= 1) by (apply round_unit; lra).
  assert (Hu' : u <= 1 - w + pow2 (-54)) by (apply round_error; lra).
  assert (Hus : 0 <= u * s <= u) by (split; nra).
  set (a := round (u * s)).
  assert (Ha : 0 <= a) by (apply round_nonneg; lra).
  assert (Ha' : a <= u * s + pow2 (-54)) by (apply round_error; lra).
  set (b := round (w * t)).
  assert (Hwt : 0 <= w * t <= w) by (split; nra).
  assert (Hb : 0 <= b) by (apply round_nonneg; lra).
  assert (Hb' : b <= w).
  { unfold representable in Hw.
    apply (Qle_trans _ (round w)); [apply round_mono; lra|].
    rewrite Hw. apply Qle_refl. }
  split; [apply round_nonneg; lra|].
  apply (Qle_trans _ (round (1 + pow2 (-53)))).
  - apply round_mono; [lra|].
    assert (E : pow2 (-53) == pow2 (-54) + pow2 (-54))
      by (vm_compute; reflexivity).
    rewrite E. lra.
  - vm_compute. discriminate.
Qed.

End BlendRounded.

(** X5.  On doubles, with every rounding of the blend counted: for a
    weight in [0,1] and similarity scores in [0,1], every final score lies
    in [0,1]; for a chunk the weighting counts as undated it is the
    similarity score. *)
Theorem finalScore_bounds
    (chunks : list Chunk) (queryYear : Z) (temporalWeight : Q) :
  (0 <= temporalWeight <= 1)%Q ->
  Binary64.representable temporalWeight ->
  Forall (fun chunk => 0 <= score chunk <= 1)%Q chunks ->
  Forall2 (fun chunk chunk' =>
             exists final,
               finalScore chunk' = Some final /\ (0 <= final <= 1)%Q /\
               (dated chunk = false -> final = score chunk))
    chunks (Binary64.applyTemporalWeighting chunks queryYear temporalWeight).
Proof.
  intros Hw Hrep Hs. unfold Binary64.applyTemporalWeighting.
  induction Hs as [|c l Hc _ IH]; [constructor|].
  cbn [List.map]. constructor; [|exact IH].
  unfold Binary64.weightChunk, dated.
  destruct (truthy (year c)) eqn:Ht; cbn [negb finalScore].
  - eexists. split; [reflexivity|]. split; [|discriminate].
    apply blend_unit; auto. apply proximity_unit.
  - eexists. split; [reflexivity|]. split; [exact Hc | reflexivity].
Qed.

Lemma finalScore_bounds_witness :
  Forall2 (fun chunk chunk' =>
             exists final,
               finalScore chunk' = Some final /\ (0 <= final <= 1)%Q /\
               (dated chunk = false -> final = score chunk))
    twoDated
    (Binary64.applyTemporalWeighting twoDated 2025 (Binary64.round (3 # 10))).
Proof.
  apply (finalScore_bounds twoDated 2025 (Binary64.round (3 # 10))).
  - split; vm_compute; discriminate.
  - vm_compute. reflexivity.
  - repeat constructor; discriminate.
Defined.



(** ** What the ranked list contains *)

Section Ranked.

Lemma In_sort {A} (comparefn : A -> A -> option Q) (l : list A) (x : A) :
  In x (ArraySort.sort comparefn l) <-> In x l.
Proof.
  split; apply Permutation_in;
    [symmetry|]; apply sort_perm.
Qed.

(** The ranked list by cases, as [beforeSort_cases] gives the working set. *)
Lemma ranked_cases input query o :
  let queryYear := extractYearFromQuery query in
  let filtering := truthy queryYear && enableFilteringOf o in
  let weighting := truthy queryYear && enableWeightingOf o in
  let filtered :=
    if filtering
    then filterByYear input (default 0 queryYear) (yearToleranceOf o)
    else input in
  chunks (performHybridSearch input query o)
  = ArraySort.sort
      (byKeyDescending (if weighting then finalScoreKey else scoreKey))
      (if weighting
       then applyTemporalWeighting filtered (default 0 queryYear)
              (temporalWeightOf o)
       else filtered) /\
  temporalFilterApplied (metadata (performHybridSearch input query o))
  = filtering /\
  temporalWeightingApplied (metadata (performHybridSearch input query o))
  = weighting.
Proof.
  cbv zeta. rewrite performHybridSearch_unfold.
  destruct (beforeSort_cases input query o) as [E _]. cbv zeta in E.
  rewrite E. simpl. unfold chooseSortKey. auto.
Qed.

Lemma filter_all {A} (f : A -> bool) (l : list A) :
  Forall (fun x => f x = true) l -> List.filter f l = l.
Proof.
  induction 1 as [|x l Hx _ IH]; simpl; [reflexivity|].
  now rewrite Hx, IH.
Qed.

Lemma map_fixed {A} (g : A -> A) (l : list A) :
  Forall (fun x => g x = x) l -> List.map g l = l.
Proof.
  induction 1 as [|x l Hx _ IH]; simpl; [reflexivity|].
  now rewrite Hx, IH.
Qed.

(** Sorting a list that is already in descending order leaves it alone. *)
Lemma sort_sorted_fixed k (l : list Chunk) :
  StronglySorted (descending k) l ->
  ArraySort.sort (byKeyDescending k) l = l.
Proof.
  induction 1 as [|x l Hs IH Hx]; simpl; [reflexivity|].
  rewrite IH. destruct l as [|y l]; [reflexivity|]. simpl.
  destruct (ArraySort.after (byKeyDescending k) x y) eqn:E; [|reflexivity].
  exfalso. apply after_true in E as (vx & vy & Hvx & Hvy & Hlt).
  inversion Hx as [|? ? Hxy _]; subst. unfold descending in Hxy.
  rewrite Hvx, Hvy in Hxy. exact (Qlt_not_le _ _ Hlt Hxy).
Qed.

End Ranked.

(** X7.  The search returns only chunks it was given: every ranked chunk
    has the text, filename, page, score and year of an input chunk; there
    are never more of them than in the input; and when the temporal filter
    was applied, the year of every ranked chunk is absent, 0, or within the
    tolerance of the query year. *)
Theorem ranked_from_input
    (input : list Chunk) (query : jsstring) (o : Options) :
  let result := performHybridSearch input query o in
  (length (chunks result) <= length input)%nat /\
  forall chunk',
    In chunk' (chunks result) ->
    (exists chunk, In chunk input /\ Heap.sameSource chunk chunk') /\
    (temporalFilterApplied (metadata result) = true ->
     exists queryYear,
       extractYearFromQuery query = Some queryYear /\
       inWindow queryYear (yearToleranceOf o) chunk').
Proof.
  cbv zeta.
  destruct (ranked_cases input query o) as (Hc & Hf & _). cbv zeta in Hc, Hf.
  rewrite Hc, Hf. clear Hc Hf.
  set (qy := extractYearFromQuery query).
  set (filtered := if truthy qy && enableFilteringOf o
                   then filterByYear input (default 0 qy) (yearToleranceOf o)
                   else input).
  assert (Hfiltered : forall c, In c filtered ->
            In c input /\
            (truthy qy && enableFilteringOf o = true ->
             inWindow (default 0 qy) (yearToleranceOf o) c)).
  { intros c Hin. unfold filtered in Hin.
    destruct (truthy qy && enableFilteringOf o).
    - unfold filterByYear in Hin. apply filter_In in Hin as [Hin Hk].
      split; [exact Hin|]. intros _. now apply keepChunk_iff.
    - split; [exact Hin | discriminate]. }
  assert (Hqy : truthy qy && enableFilteringOf o = true ->
                exists y, qy = Some y /\ default 0 qy = y).
  { intros H. apply andb_prop in H as [H _].
    apply truthy_true in H as (n & Hn & _). exists n. now rewrite Hn. }
  split.
  - rewrite <- (Permutation_length (sort_perm _ _)).
    assert (length filtered <= length input)%nat.
    { unfold filtered. destruct (truthy qy && enableFilteringOf o);
        [apply List.filter_length_le | lia]. }
    destruct (truthy qy && enableWeightingOf o); [|lia].
    unfold applyTemporalWeighting. rewrite length_map. lia.
  - intros c' Hin. apply In_sort in Hin.
    destruct (truthy qy && enableWeightingOf o).
    + unfold applyTemporalWeighting in Hin.
      apply in_map_iff in Hin as (c & <- & Hc).
      destruct (Hfiltered c Hc) as [Hinput Hwin]. split.
      * exists c. split; [exact Hinput|]. apply sameSource_weightChunk.
      * intros Hf. destruct (Hqy Hf) as (y & Hy & Hd).
        exists y. split; [exact Hy|]. rewrite <- Hd.
        specialize (Hwin Hf). unfold inWindow in *.
        destruct (sameSource_weightChunk (default 0 qy) (temporalWeightOf o) c)
          as (_ & _ & _ & _ & Hyear).
        now rewrite Hyear.
    + destruct (Hfiltered c' Hin) as [Hinput Hwin]. split.
      * exists c'. split; [exact Hinput|]. repeat split.
      * intros Hf. destruct (Hqy Hf) as (y & Hy & Hd).
        exists y. split; [exact Hy|]. rewrite <- Hd. now apply Hwin.
Qed.

Lemma ranked_from_input_witness :
  exists queryYear,
    extractYearFromQuery (ofString "Quels sont les projets pour 2025?")
    = Some queryYear /\
    inWindow queryYear (yearToleranceOf noOptions) (weightChunk 2025 (3 # 10) (plain (78 # 100) (Some 2025))).
Proof.
  destruct (ranked_from_input twoDated
              (ofString "Quels sont les projets pour 2025?") noOptions)
    as [_ H].
  destruct (H (weightChunk 2025 (3 # 10) (plain (78 # 100) (Some 2025))))
    as [_ Hw].
  - left. reflexivity.
  - apply Hw. reflexivity.
Defined.

(** X8.  Ranking a ranked list again changes nothing: running the search
    on its own result, with the same query and options, returns the same
    list of chunks. *)
Theorem performHybridSearch_rerank
    (input : list Chunk) (query : jsstring) (o : Options) :
  chunks (performHybridSearch
            (chunks (performHybridSearch input query o)) query o)
  = chunks (performHybridSearch input query o).
Proof.
  destruct (ranked_cases (chunks (performHybridSearch input query o)) query o)
    as (Hc2 & _). cbv zeta in Hc2. rewrite Hc2. clear Hc2.
  destruct (ranked_cases input query o) as (Hc & _). cbv zeta in Hc.
  rewrite Hc. clear Hc.
  set (qy := extractYearFromQuery query).
  set (target := default 0 qy).
  set (filtered := if truthy qy && enableFilteringOf o
                   then filterByYear input target (yearToleranceOf o)
                   else input).
  set (k := if truthy qy && enableWeightingOf o
            then finalScoreKey else scoreKey).
  set (ws := if truthy qy && enableWeightingOf o
             then applyTemporalWeighting filtered target (temporalWeightOf o)
             else filtered).
  set (ranked := ArraySort.sort (byKeyDescending k) ws).
  assert (Hkeyed : Forall (keyed k) ws).
  { unfold k, ws. destruct (truthy qy && enableWeightingOf o);
      [apply weighted_keyed | apply scored_keyed]. }
  assert (Hsorted : StronglySorted (descending k) ranked)
    by (apply sort_sorted; exact Hkeyed).
  assert (Hperm : Permutation ws ranked) by apply sort_perm.
  (* the filter keeps every ranked chunk *)
  assert (Hkeep : (if truthy qy && enableFilteringOf o
                   then filterByYear ranked target (yearToleranceOf o)
                   else ranked) = ranked).
  { destruct (truthy qy && enableFilteringOf o) eqn:Ef; [|reflexivity].
    unfold filterByYear. apply filter_all.
    eapply Permutation_Forall; [exact Hperm|].
    unfold ws, filtered.
    destruct (truthy qy && enableWeightingOf o).
    - unfold applyTemporalWeighting. apply List.Forall_map.
      apply List.Forall_forall. intros c Hc. rewrite keepChunk_weightChunk.
      unfold filterByYear in Hc. now apply filter_In in Hc.
    - apply List.Forall_forall. intros c Hc.
      unfold filterByYear in Hc. now apply filter_In in Hc. }
  rewrite Hkeep.
  (* weighting the ranked chunks again gives them back *)
  assert (Hweigh : (if truthy qy && enableWeightingOf o
                    then applyTemporalWeighting ranked target
                           (temporalWeightOf o)
                    else ranked) = ranked).
  { destruct (truthy qy && enableWeightingOf o) eqn:Ew; [|reflexivity].
    unfold applyTemporalWeighting at 1. apply map_fixed.
    eapply Permutation_Forall; [exact Hperm|].
    unfold ws. unfold applyTemporalWeighting.
    apply List.Forall_map, List.Forall_forall. intros c _.
    apply weightChunk_again. }
  rewrite Hweigh. fold k. now apply sort_sorted_fixed.
Qed.

(** X9.  On chunks as the vector search builds them (none of the three
    added fields), the ranked chunks carry [finalScore] exactly when
    weighting was applied, and [temporalScore] and [originalScore] exactly
    when weighting was applied and the year is present and not 0. *)
Theorem added_fields_present
    (input : list Chunk) (query : jsstring) (o : Options) :
  Forall unweighted input ->
  let result := performHybridSearch input query o in
  let weighting := temporalWeightingApplied (metadata result) in
  forall chunk',
    In chunk' (chunks result) ->
    (is_Some (finalScore chunk') <-> weighting = true) /\
    (is_Some (temporalScore chunk') <->
     weighting = true /\ dated chunk' = true) /\
    (is_Some (originalScore chunk') <->
     weighting = true /\ dated chunk' = true).
Proof.
  intros Hfresh. cbv zeta.
  destruct (ranked_cases input query o) as (Hc & _ & Hw). cbv zeta in Hc, Hw.
  rewrite Hc, Hw. clear Hc Hw.
  set (qy := extractYearFromQuery query).
  set (filtered := if truthy qy && enableFilteringOf o
                   then filterByYear input (default 0 qy) (yearToleranceOf o)
                   else input).
  assert (Hfiltered : forall c, In c filtered -> unweighted c).
  { intros c Hin. apply (proj1 (List.Forall_forall _ _) Hfresh).
    unfold filtered in Hin. destruct (truthy qy && enableFilteringOf o);
      [|exact Hin].
    unfold filterByYear in Hin. now apply filter_In in Hin. }
  intros c' Hin. apply In_sort in Hin.
  destruct (truthy qy && enableWeightingOf o).
  - unfold applyTemporalWeighting in Hin.
    apply in_map_iff in Hin as (c & <- & Hc).
    destruct (Hfiltered c Hc) as (Ht & Hf & Ho).
    unfold weightChunk, dated.
    destruct (truthy (year c)) eqn:Ey; simpl; rewrite ?Ey, ?Ht, ?Ho;
      rewrite !is_Some_alt; intuition congruence.
  - destruct (Hfiltered c' Hin) as (Ht & Hf & Ho). rewrite Ht, Hf, Ho.
    rewrite !is_Some_alt. intuition congruence.
Qed.

Lemma added_fields_present_witness :
  is_Some (temporalScore (weightChunk 2025 (3 # 10) (plain (78 # 100) (Some 2025)))) <->
  temporalWeightingApplied
    (metadata (performHybridSearch twoDated
                 (ofString "Quels sont les projets pour 2025?") noOptions))
  = true /\
  dated (weightChunk 2025 (3 # 10) (plain (78 # 100) (Some 2025))) = true.
Proof.
  destruct (added_fields_present twoDated
              (ofString "Quels sont les projets pour 2025?") noOptions)
    with (chunk' := weightChunk 2025 (3 # 10) (plain (78 # 100) (Some 2025)))
    as (_ & H & _).
  - repeat constructor.
  - left. reflexivity.
  - exact H.
Defined.

(** * The chat endpoint around the search *)

Section ChatFacts.

Lemma StronglySorted_app {A} (R : A -> A -> Prop) (l1 l2 : list A) :
  StronglySorted R (l1 ++ l2) ->
  forall x y, In x l1 -> In y l2 -> R x y.
Proof.
  induction l1 as [|a l1 IH]; simpl; intros Hs x y Hx Hy; [contradiction|].
  inversion Hs as [|? ? Hs' Ha]; subst. destruct Hx as [<-|Hx].
  - apply (proj1 (List.Forall_forall _ _) Ha). apply in_or_app. now right.
  - now apply IH.
Qed.

Lemma ranked_sorted input query o :
  StronglySorted
    (descending
       (if temporalWeightingApplied (metadata (performHybridSearch input query o))
        then finalScoreKey else scoreKey))
    (chunks (performHybridSearch input query o)).
Proof.
  destruct (ranked_cases input query o) as (Hc & _ & Hw). cbv zeta in Hc, Hw.
  rewrite Hc, Hw.
  destruct (truthy (extractYearFromQuery query) && enableWeightingOf o);
    apply sort_sorted; [apply weighted_keyed | apply scored_keyed].
Qed.

Lemma ranked_length input query o :
  length (chunks (performHybridSearch input query o))
  = filteredCount (metadata (performHybridSearch input query o)).
Proof.
  rewrite performHybridSearch_unfold.
  destruct (beforeSort_cases input query o) as [E _]. cbv zeta in E.
  rewrite E. simpl.
  rewrite <- (Permutation_length (sort_perm _ _)).
  destruct (truthy (extractYearFromQuery query) && enableWeightingOf o);
    [apply length_map | reflexivity].
Qed.

End ChatFacts.

(** X10.  The settings of [HYBRID_SEARCH_CONFIG] are never read.  The
    endpoint passes an object whose keys are TEMPORAL_WEIGHT, YEAR_TOLERANCE,
    ENABLE_FILTERING and ENABLE_WEIGHTING, while the search looks up
    temporalWeight, yearTolerance, enableFiltering and enableWeighting:
    whatever the four values, the search runs with its defaults (weight
    0.3, tolerance 2, both steps on).  An object with the names the search
    looks up is read. *)
Theorem config_keys_not_read
    (weight tolerance filtering weighting : Chat.setting)
    (rawChunks : list Chunk) (userMessage : jsstring) :
  Chat.hybridSearchStep
    (Chat.hybridSearchConfig weight tolerance filtering weighting)
    rawChunks userMessage
  = performHybridSearch rawChunks userMessage noOptions /\
  Chat.readOptions
    ({[ "temporalWeight" := weight; "yearTolerance" := tolerance;
        "enableFiltering" := filtering; "enableWeighting" := weighting ]})
  = {| temporalWeight := Some (Chat.toNumber weight);
       yearTolerance := Some (Qfloor (Chat.toNumber tolerance));
       enableFiltering := Some (Chat.toBoolean filtering);
       enableWeighting := Some (Chat.toBoolean weighting) |}.
Proof.
  split.
  - unfold Chat.hybridSearchStep. f_equal.
  - reflexivity.
Qed.

(** X11.  The context holds the best-ranked chunks.  The endpoint keeps the
    first ten ranked chunks: [chunksFound] is the smaller of 10 and
    [filteredCount]; the kept chunks are the head of the ranked list in
    ranked order; and no chunk left out has a higher sort key than a chunk
    kept. *)
Theorem finalChunks_best
    (rawChunks : list Chunk) (userMessage : jsstring) (o : Options) :
  let result := performHybridSearch rawChunks userMessage o in
  let kept := Chat.finalChunks (chunks result) in
  let k := if temporalWeightingApplied (metadata result)
           then finalScoreKey else scoreKey in
  length kept = Nat.min 10 (filteredCount (metadata result)) /\
  chunks result = kept ++ skipn 10 (chunks result) /\
  forall a b, In a kept -> In b (skipn 10 (chunks result)) -> descending k a b.
Proof.
  cbv zeta. unfold Chat.finalChunks, Chat.CONTEXT_LIMIT.
  split; [|split].
  - rewrite length_firstn, ranked_length. reflexivity.
  - symmetry. apply firstn_skipn.
  - apply StronglySorted_app. rewrite firstn_skipn. apply ranked_sorted.
Qed.

Lemma finalChunks_best_witness :
  descending scoreKey (plain (82 # 100) (Some 2020)) (plain (0 # 1) None).
Proof.
  destruct (finalChunks_best
              (plain (0 # 1) None :: List.repeat (plain (82 # 100) (Some 2020)) 10)
              (ofString "Projets futurs") noOptions) as (_ & _ & H).
  apply H; vm_compute; auto.
Defined.

Section SourceFacts.

Variable numberToString : Z -> jsstring.

Lemma truthyString_Some (s : option jsstring) :
  Chat.truthyString s = true <-> exists name, s = Some name /\ name <> [].
Proof.
  destruct s as [[|c name]|]; simpl; split; try discriminate.
  - intros (n & [= <-] & H). contradiction.
  - intros _. now eexists.
  - reflexivity.
  - now intros (n & H & _).
Qed.

Lemma omap_step {A B} (f : A -> option B) (x : A) (l : list A) :
  omap f (x :: l)
  = match f x with Some y => y :: omap f l | None => omap f l end.
Proof. reflexivity. Qed.

(** After the search on unweighted chunks, the original score of a ranked
    chunk is absent or is its score. *)
Lemma ranked_originalScore input query o chunk' :
  Forall unweighted input ->
  In chunk' (chunks (performHybridSearch input query o)) ->
  originalScore chunk' = None \/ originalScore chunk' = Some (score chunk').
Proof.
  intros Hfresh Hin.
  destruct (ranked_cases input query o) as (Hc & _). cbv zeta in Hc.
  rewrite Hc in Hin. clear Hc. apply In_sort in Hin.
  set (filtered := if truthy (extractYearFromQuery query) && enableFilteringOf o
                   then filterByYear input
                          (default 0 (extractYearFromQuery query))
                          (yearToleranceOf o)
                   else input) in *.
  assert (Hfiltered : forall c, In c filtered -> unweighted c).
  { intros c Hc. apply (proj1 (List.Forall_forall _ _) Hfresh).
    unfold filtered in Hc.
    destruct (truthy (extractYearFromQuery query) && enableFilteringOf o);
      [|exact Hc].
    unfold filterByYear in Hc. now apply filter_In in Hc. }
  destruct (truthy (extractYearFromQuery query) && enableWeightingOf o).
  - unfold applyTemporalWeighting in Hin.
    apply in_map_iff in Hin as (c & <- & Hc).
    destruct (Hfiltered c Hc) as (_ & _ & Ho). unfold weightChunk.
    destruct (negb (truthy (year c))); simpl; auto.
  - destruct (Hfiltered chunk' Hin) as (_ & _ & Ho). auto.
Qed.

Lemma enrichedSource_originalScore chunk :
  originalScore chunk = None \/ originalScore chunk = Some (score chunk) ->
  Source.originalScore (Chat.enrichedSource numberToString chunk)
  = score chunk.
Proof.
  intros [H|H]; simpl; rewrite H; simpl; [reflexivity|].
  now destruct (negb (Qeq_bool (score chunk) 0)).
Qed.

End SourceFacts.

(** X12.  When a source has a link.  The URL of a source is absent exactly
    when its chunk has no (or an empty) filename, or has neither a year that
    is present and not 0 nor four consecutive digits in the filename.  When
    present it is "/datas/", then the year of the chunk or else the first
    four digits found in the filename, then "/" and the filename.  The page
    anchor "#page=" is appended exactly when the page is present and not 0
    and the URL exists. *)
Theorem source_url (numberToString : Z -> jsstring) (chunk : Chunk) :
  let source := Chat.enrichedSource numberToString chunk in
  (Source.url source = None <->
   Chat.truthyString (filename chunk) = false \/
   (truthy (year chunk) = false /\
    firstMatch fourDigits (default [] (filename chunk)) = None)) /\
  (forall u,
      Source.url source = Some u ->
      exists name segment,
        filename chunk = Some name /\ name <> [] /\
        u = ofString "/datas/" ++ segment ++ ofString "/" ++ name /\
        (forall y, year chunk = Some y -> y <> 0 ->
                   segment = numberToString y) /\
        (truthy (year chunk) = false ->
         firstMatch fourDigits name = Some segment)) /\
  (Source.urlWithPage source
   = match Source.url source, page chunk with
     | Some u, Some p =>
         if p =? 0 then Some u
         else Some (u ++ ofString "#page=" ++ numberToString p)
     | other, _ => other
     end).
Proof.
  cbv zeta. unfold Chat.enrichedSource, Chat.pdfUrlOf. simpl.
  destruct (Chat.truthyString (filename chunk)) eqn:Ef.
  - apply truthyString_Some in Ef as (name & Hname & Hne). rewrite Hname.
    simpl. destruct (truthy (year chunk)) eqn:Ey; simpl.
    + apply truthy_true in Ey as (y & Hy & Hy0). rewrite Hy. simpl.
      split; [|split].
      * split; [discriminate|]. intros [H|[H _]]; discriminate.
      * intros u [= <-]. exists name, (numberToString y).
        repeat split; auto; [|discriminate].
        now intros y' [= <-] _.
      * destruct (page chunk) as [p|]; simpl; [|reflexivity].
        destruct (p =? 0); reflexivity.
    + destruct (firstMatch fourDigits name) as [seg|] eqn:Em.
      * split; [|split].
        -- split; [discriminate|]. intros [H|[_ H]]; discriminate.
        -- intros u [= <-]. exists name, seg. repeat split; auto.
           intros y Hy Hy0. apply truthy_false in Ey as [Ey|Ey]; congruence.
        -- destruct (page chunk) as [p|]; simpl; [|reflexivity].
           destruct (p =? 0); reflexivity.
      * split; [|split].
        -- split; auto.
        -- discriminate.
        -- now rewrite andb_false_r.
  - simpl. split; [|split].
    + split; auto.
    + discriminate.
    + now rewrite andb_false_r.
Qed.

Lemma source_url_witness :
  exists name segment,
    filename (mkChunk [] 1 (Some (ofString "cr-2024.pdf")) None None
                None None None) = Some name /\
    name <> [] /\
    ofString "/datas/2024/cr-2024.pdf"
    = ofString "/datas/" ++ segment ++ ofString "/" ++ name /\
    (forall y, None = Some y -> y <> 0 -> segment = [] ) /\
    (false = false -> firstMatch fourDigits name = Some segment).
Proof.
  destruct (source_url (fun _ => [])
              (mkChunk [] 1 (Some (ofString "cr-2024.pdf")) None None
                 None None None)) as (_ & H & _).
  apply (H (ofString "/datas/2024/cr-2024.pdf")). reflexivity.
Defined.

(** X13.  The scores shown with the sources.  For raw chunks without the
    added fields, the [originalScore] of every source is the similarity
    score of its chunk, whether or not weighting ran; the [score] of a
    source is that same similarity score when weighting did not run, and
    otherwise the final score of the chunk, unless the final score is 0, in
    which case the similarity score is shown. *)
Theorem source_scores
    (numberToString : Z -> jsstring)
    (rawChunks : list Chunk) (userMessage : jsstring) (o : Options) :
  Forall unweighted rawChunks ->
  let result := performHybridSearch rawChunks userMessage o in
  let kept := Chat.finalChunks (chunks result) in
  let sources := Chat.buildEnrichedSources numberToString kept in
  length sources = length kept /\
  List.map Source.originalScore sources = List.map score kept /\
  (temporalWeightingApplied (metadata result) = false ->
   List.map Source.score sources = List.map score kept) /\
  (temporalWeightingApplied (metadata result) = true ->
   Forall2 (fun source chunk =>
              exists final,
                finalScore chunk = Some final /\
                Source.score source
                = if Qeq_bool final 0 then score chunk else final)
     sources kept).
Proof.
  intros Hfresh. cbv zeta.
  set (result := performHybridSearch rawChunks userMessage o).
  assert (Hkept : forall c, In c (Chat.finalChunks (chunks result)) ->
                            In c (chunks result)).
  { intros c Hc. unfold Chat.finalChunks in Hc.
    rewrite <- (firstn_skipn Chat.CONTEXT_LIMIT (chunks result)).
    apply in_or_app. now left. }
  pose proof (added_fields := fun c (Hc : In c (chunks result)) =>
                ranked_originalScore rawChunks userMessage o c Hfresh Hc).
  assert (Hfinal : forall c, In c (chunks result) ->
            if temporalWeightingApplied (metadata result)
            then is_Some (finalScore c) else finalScore c = None).
  { intros c Hc. unfold result in *.
    destruct (ranked_cases rawChunks userMessage o) as (Hr & _ & Hw).
    cbv zeta in Hr, Hw. rewrite Hw. rewrite Hr in Hc. apply In_sort in Hc.
    destruct (truthy (extractYearFromQuery userMessage) && enableWeightingOf o).
    - unfold applyTemporalWeighting in Hc.
      apply in_map_iff in Hc as (c0 & <- & _). unfold weightChunk.
      destruct (negb (truthy (year c0))); simpl; eauto.
    - assert (Hin : In c rawChunks).
      { destruct (truthy (extractYearFromQuery userMessage)
                  && enableFilteringOf o); [|exact Hc].
        unfold filterByYear in Hc. now apply filter_In in Hc. }
      now destruct (proj1 (List.Forall_forall _ _) Hfresh c Hin) as (_ & ? & _). }
  unfold Chat.buildEnrichedSources.
  split; [apply length_map|]. split; [|split].
  - rewrite List.map_map. apply map_ext_in. intros c Hc.
    apply enrichedSource_originalScore, added_fields, Hkept, Hc.
  - intros Hw. rewrite List.map_map. apply map_ext_in. intros c Hc.
    specialize (Hfinal c (Hkept c Hc)). rewrite Hw in Hfinal.
    simpl. now rewrite Hfinal.
  - intros Hw.
    assert (G : forall l, (forall c, In c l -> is_Some (finalScore c)) ->
              Forall2 (fun source chunk =>
                         exists final,
                           finalScore chunk = Some final /\
                           Source.score source
                           = if Qeq_bool final 0 then score chunk else final)
                (List.map (Chat.enrichedSource numberToString) l) l).
    { induction l as [|c l IH]; intros Hl; simpl; constructor.
      - destruct (Hl c (or_introl eq_refl)) as [f Hf]. exists f.
        split; [exact Hf|]. simpl. rewrite Hf. simpl.
        now destruct (Qeq_bool f 0).
      - apply IH. intros c' Hc'. apply Hl. now right. }
    apply G. intros c Hc. specialize (Hfinal c (Hkept c Hc)).
    now rewrite Hw in Hfinal.
Qed.

Lemma source_scores_witness :
  List.map Source.originalScore
    (Chat.buildEnrichedSources (fun _ => [])
       (Chat.finalChunks
          (chunks (performHybridSearch twoDated
                     (ofString "Quels sont les projets pour 2025?")
                     noOptions))))
  = List.map score
      (Chat.finalChunks
         (chunks (performHybridSearch twoDated
                    (ofString "Quels sont les projets pour 2025?")
                    noOptions))).
Proof.
  destruct (source_scores (fun _ => []) twoDated
              (ofString "Quels sont les projets pour 2025?") noOptions)
    as (_ & H & _).
  - repeat constructor.
  - exact H.
Defined.

(** X14.  The chunks built from a search response.  A missing result gives
    no chunks.  Otherwise the chunks are, in order, those of the points
    whose payload has a non-empty text: each takes its text, filename, page
    and year from the payload and its score from the point, and has none of
    the fields weighting adds. *)
Theorem chunksOfResult_spec (result : option (list Qdrant.Point)) :
  Chat.chunksOfResult None = [] /\
  Forall (fun chunk => unweighted chunk /\ text chunk <> [])
    (Chat.chunksOfResult result) /\
  forall points,
    result = Some points ->
    Forall2 (fun pt chunk =>
               exists payload,
                 Qdrant.payload pt = Some payload /\
                 Qdrant.text payload = Some (text chunk) /\
                 filename chunk = Qdrant.filename payload /\
                 page chunk = Qdrant.page_number payload /\
                 year chunk = Qdrant.year payload /\
                 score chunk = Qdrant.score pt)
      (List.filter
         (fun pt => Chat.truthyString (Qdrant.payload pt ≫= Qdrant.text))
         points)
      (Chat.chunksOfResult result).
Proof.
  assert (Hpoint : forall pt,
             match Chat.chunkOfPoint pt with
             | Some c =>
                 Chat.truthyString (Qdrant.payload pt ≫= Qdrant.text) = true /\
                 unweighted c /\ text c <> [] /\
                 exists payload,
                   Qdrant.payload pt = Some payload /\
                   Qdrant.text payload = Some (text c) /\
                   filename c = Qdrant.filename payload /\
                   page c = Qdrant.page_number payload /\
                   year c = Qdrant.year payload /\
                   score c = Qdrant.score pt
             | None =>
                 Chat.truthyString (Qdrant.payload pt ≫= Qdrant.text) = false
             end).
  { intros pt. unfold Chat.chunkOfPoint.
    destruct (Qdrant.payload pt) as [pl|]; simpl; [|reflexivity].
    destruct (Qdrant.text pl) as [[|ch name]|] eqn:Et; simpl;
      try reflexivity.
    split; [reflexivity|]. repeat split; try discriminate.
    exists pl. repeat split; auto. }
  split; [reflexivity|]. split.
  - destruct result as [points|]; simpl; [|constructor].
    induction points as [|pt points IH]; [constructor|].
    rewrite omap_step. specialize (Hpoint pt).
    destruct (Chat.chunkOfPoint pt) as [c|]; [|exact IH].
    constructor; [|exact IH]. destruct Hpoint as (_ & ? & ? & _). auto.
  - intros points ->. simpl.
    induction points as [|pt points IH]; [constructor|].
    rewrite omap_step. simpl. specialize (Hpoint pt).
    destruct (Chat.chunkOfPoint pt) as [c|].
    + destruct Hpoint as (-> & _ & _ & H). now constructor.
    + rewrite Hpoint. exact IH.
Qed.

Lemma chunksOfResult_spec_witness :
  Forall2 (fun pt chunk =>
             exists payload,
               Qdrant.payload pt = Some payload /\
               Qdrant.text payload = Some (text chunk) /\
               filename chunk = Qdrant.filename payload /\
               page chunk = Qdrant.page_number payload /\
               year chunk = Qdrant.year payload /\
               score chunk = Qdrant.score pt)
    (List.filter
       (fun pt => Chat.truthyString (Qdrant.payload pt ≫= Qdrant.text))
       [Qdrant.mkPoint None 1;
        Qdrant.mkPoint
          (Some (Qdrant.mkPayload (Some (ofString "t")) None None (Some 2024)))
          (1 # 2)])
    (Chat.chunksOfResult
       (Some [Qdrant.mkPoint None 1;
              Qdrant.mkPoint
                (Some (Qdrant.mkPayload (Some (ofString "t")) None None
                         (Some 2024)))
                (1 # 2)])).
Proof.
  destruct (chunksOfResult_spec
              (Some [Qdrant.mkPoint None 1;
                     Qdrant.mkPoint
                       (Some (Qdrant.mkPayload (Some (ofString "t")) None None
                                (Some 2024)))
                       (1 # 2)])) as (_ & _ & H).
  apply H. reflexivity.
Defined.

(** * The indexer: cutting a page into chunks *)

Section ChunkText.

Import Uploader.

Lemma chunkLoop_acc maxLen paragraphs chunks current :
  chunkLoop maxLen paragraphs chunks current
  = chunks ++ chunkLoop maxLen paragraphs [] current.
Proof.
  revert chunks current.
  induction paragraphs as [|p ps IH]; intros chunks current; simpl.
  - destruct (nonEmpty current); [reflexivity | now rewrite app_nil_r].
  - destruct (Z.of_nat (length (current ++ p)) >? maxLen).
    + rewrite IH. symmetry. rewrite IH.
      destruct (nonEmpty current); simpl; [|reflexivity].
      now rewrite <- app_assoc.
    + apply IH.
Qed.

(** One turn of the loop, seen from the result. *)
Lemma chunkLoop_step maxLen p ps current :
  chunkLoop maxLen (p :: ps) [] current
  = if Z.of_nat (length (current ++ p)) >? maxLen
    then (if nonEmpty current then [current] else [])
         ++ chunkLoop maxLen ps [] p
    else chunkLoop maxLen ps []
           (current ++ (if nonEmpty current then [newline] else []) ++ p).
Proof.
  simpl. destruct (Z.of_nat (length (current ++ p)) >? maxLen);
    [|reflexivity].
  rewrite chunkLoop_acc. now destruct (nonEmpty current).
Qed.

Lemma nonEmpty_true s : nonEmpty s = true <-> s <> [].
Proof. destruct s; simpl; split; congruence. Qed.

Lemma nonEmpty_false s : nonEmpty s = false <-> s = [].
Proof. destruct s; simpl; split; congruence. Qed.

Lemma splitFrom_lineFree s : forall piece,
  lineFree (default [] piece) -> Forall lineFree (splitFrom piece s).
Proof.
  induction s as [|c s IH]; intros piece Hp; simpl.
  - repeat constructor. exact Hp.
  - destruct (N.eqb_spec c newline) as [->|Hc].
    + destruct piece as [p|]; [constructor; [exact Hp|]|];
        apply IH; constructor.
    + apply IH. simpl. apply Forall_app. split; [exact Hp|].
      repeat constructor. exact Hc.
Qed.

Lemma splitFrom_empty s : forall piece,
  Forall (fun p => p = []) (splitFrom piece s) <->
  default [] piece = [] /\ Forall (fun c => c = newline) s.
Proof.
  induction s as [|c s IH]; intros piece; simpl.
  - split.
    + intros H. inversion H; subst. split; [assumption | constructor].
    + intros [H _]. repeat constructor. exact H.
  - destruct (N.eqb_spec c newline) as [->|Hc].
    + destruct piece as [p|]; simpl.
      * split.
        -- intros H. inversion H as [|? ? Hp Hrest]; subst.
           apply IH in Hrest as [_ Hs]. split; [reflexivity|].
           now constructor.
        -- intros [-> Hs]. inversion Hs; subst. constructor; [reflexivity|].
           apply IH. now split.
      * rewrite IH. simpl. split.
        -- intros [_ Hs]. split; [reflexivity | now constructor].
        -- intros [_ Hs]. inversion Hs; subst. now split.
    + rewrite IH. simpl. split.
      * intros [H _]. now destruct (default [] piece).
      * intros [_ H]. inversion H; subst. contradiction.
Qed.

Lemma chunkLoop_nonEmpty maxLen ps : forall current,
  Forall (fun chunk => chunk <> []) (chunkLoop maxLen ps [] current).
Proof.
  induction ps as [|p ps IH]; intros current.
  - simpl. destruct current; repeat constructor. discriminate.
  - rewrite chunkLoop_step.
    destruct (Z.of_nat (length (current ++ p)) >? maxLen); [|apply IH].
    apply Forall_app. split; [|apply IH].
    destruct current; repeat constructor. discriminate.
Qed.

Lemma chunkLoop_nil maxLen ps : forall current,
  chunkLoop maxLen ps [] current = [] <->
  current = [] /\ Forall (fun p => p = []) ps.
Proof.
  induction ps as [|p ps IH]; intros current.
  - simpl. destruct current; simpl; split; try discriminate.
    + intros _. split; [reflexivity | constructor].
    + reflexivity.
    + intros [H _]. discriminate.
  - rewrite chunkLoop_step.
    destruct (Z.of_nat (length (current ++ p)) >? maxLen).
    + destruct current as [|c current]; simpl.
      * rewrite IH. split.
        -- intros [-> H]. split; [reflexivity | now constructor].
        -- intros [_ H]. inversion H; subst. now split.
      * split; [discriminate|]. intros [H _]. discriminate.
    + rewrite IH. destruct current as [|c current]; simpl.
      * split.
        -- intros [-> H]. split; [reflexivity | now constructor].
        -- intros [_ H]. inversion H; subst. now split.
      * split; [intros [H _]; discriminate | intros [H _]; discriminate].
Qed.

Lemma chunkLoop_sized maxLen ps : forall current,
  sized maxLen current -> Forall lineFree ps ->
  Forall (sized maxLen) (chunkLoop maxLen ps [] current).
Proof.
  induction ps as [|p ps IH]; intros current Hc Hps.
  - simpl. destruct (nonEmpty current); [|constructor].
    constructor; [exact Hc | constructor].
  - inversion Hps as [|? ? Hp Hps']; subst. rewrite chunkLoop_step.
    destruct (Z.of_nat (length (current ++ p)) >? maxLen) eqn:E.
    + apply Forall_app. split.
      * destruct (nonEmpty current); [|constructor].
        constructor; [exact Hc | constructor].
      * apply IH; [now right | exact Hps'].
    + apply IH; [|exact Hps'].
      rewrite Z.gtb_ltb in E. apply Z.ltb_ge in E. rewrite length_app in E.
      destruct current as [|c current]; simpl.
      * now right.
      * left. simpl in E. cbn [length]. rewrite length_app. cbn [length]. lia.
Qed.

Lemma withoutNewlines_app a b :
  withoutNewlines (a ++ b) = withoutNewlines a ++ withoutNewlines b.
Proof. apply List.filter_app. Qed.

Lemma splitFrom_content s : forall piece,
  withoutNewlines (concat (splitFrom piece s))
  = withoutNewlines (default [] piece) ++ withoutNewlines s.
Proof.
  induction s as [|c s IH]; intros piece; simpl.
  - now rewrite !app_nil_r.
  - unfold withoutNewlines at 3. simpl.
    destruct (N.eqb_spec c newline) as [->|Hc]; simpl.
    + destruct piece as [p|]; simpl.
      * rewrite withoutNewlines_app, IH. reflexivity.
      * rewrite IH. reflexivity.
    + rewrite IH. simpl. rewrite withoutNewlines_app.
      unfold withoutNewlines at 2. simpl.
      destruct (N.eqb_spec c newline); [contradiction|]. simpl.
      now rewrite <- app_assoc.
Qed.

Lemma chunkLoop_content maxLen ps : forall current,
  withoutNewlines (concat (chunkLoop maxLen ps [] current))
  = withoutNewlines current ++ withoutNewlines (concat ps).
Proof.
  induction ps as [|p ps IH]; intros current.
  - simpl. destruct current; simpl; now rewrite ?app_nil_r.
  - rewrite chunkLoop_step. simpl concat.
    destruct (Z.of_nat (length (current ++ p)) >? maxLen).
    + rewrite concat_app, withoutNewlines_app, IH, withoutNewlines_app.
      destruct current as [|c current]; [reflexivity|].
      cbn [nonEmpty concat]. now rewrite (app_nil_r (c :: current)).
    + rewrite IH, !withoutNewlines_app, <- !app_assoc.
      now destruct (nonEmpty current).
Qed.

(** Paragraphs of a text cut at a line feed. *)
Lemma splitFrom_restart s :
  List.filter nonEmpty (splitFrom None s)
  = List.filter nonEmpty (splitFrom (Some []) s).
Proof.
  destruct s as [|c s]; simpl; [reflexivity|].
  now destruct (c =? newline)%N.
Qed.

Lemma splitFrom_cut a b : forall piece,
  List.filter nonEmpty (splitFrom piece (a ++ newline :: b))
  = List.filter nonEmpty (splitFrom piece a)
    ++ List.filter nonEmpty (splitFrom (Some []) b).
Proof.
  induction a as [|c a IH]; intros piece.
  - cbn [app splitFrom]. rewrite N.eqb_refl.
    destruct piece as [p|]; simpl.
    + rewrite splitFrom_restart. now destruct (nonEmpty p).
    + now rewrite splitFrom_restart.
  - cbn [app splitFrom]. destruct (c =? newline)%N.
    + destruct piece as [p|]; simpl; rewrite IH;
        [now destruct (nonEmpty p) | reflexivity].
    + apply IH.
Qed.

Lemma splitFrom_lineFree_one s : forall piece,
  lineFree s -> splitFrom piece s = [default [] piece ++ s].
Proof.
  induction s as [|c s IH]; intros piece Hs; simpl.
  - now rewrite app_nil_r.
  - inversion Hs as [|? ? Hc Hs']; subst.
    destruct (N.eqb_spec c newline); [contradiction|].
    rewrite IH by exact Hs'. simpl. now rewrite <- app_assoc.
Qed.

Lemma paragraphsOf_cut a b :
  paragraphsOf (a ++ newline :: b) = paragraphsOf a ++ paragraphsOf b.
Proof. apply splitFrom_cut. Qed.

Lemma paragraphsOf_lineFree p :
  lineFree p -> paragraphsOf p = List.filter nonEmpty [p].
Proof.
  intros Hp. unfold paragraphsOf, splitParagraphs.
  now rewrite splitFrom_lineFree_one.
Qed.

Lemma chunkLoop_paragraphs maxLen ps : forall current,
  Forall lineFree ps ->
  concat (List.map paragraphsOf (chunkLoop maxLen ps [] current))
  = paragraphsOf current ++ List.filter nonEmpty ps.
Proof.
  induction ps as [|p ps IH]; intros current Hps.
  - simpl. destruct current; simpl; [reflexivity|].
    now rewrite !app_nil_r.
  - inversion Hps as [|? ? Hp Hps']; subst. rewrite chunkLoop_step.
    destruct (Z.of_nat (length (current ++ p)) >? maxLen).
    + rewrite List.map_app, concat_app, IH by exact Hps'.
      rewrite (paragraphsOf_lineFree p Hp).
      destruct current as [|c current]; simpl.
      * now destruct (nonEmpty p).
      * rewrite app_nil_r. now destruct (nonEmpty p).
    + rewrite IH by exact Hps'.
      destruct current as [|c current]; simpl.
      * rewrite (paragraphsOf_lineFree p Hp). simpl.
        now destruct (nonEmpty p).
      * change (c :: current ++ newline :: p)
          with ((c :: current) ++ newline :: p).
        rewrite paragraphsOf_cut, (paragraphsOf_lineFree p Hp), <- app_assoc.
        simpl. now destruct (nonEmpty p).
Qed.

Lemma splitParagraphs_lineFree text : Forall lineFree (splitParagraphs text).
Proof. apply splitFrom_lineFree. constructor. Qed.

End ChunkText.

(** X15.  [chunkText] never returns an empty chunk, and it returns no chunk
    at all exactly when the text is empty or made of line feeds only. *)
Theorem chunkText_nonEmpty (text : jsstring) (maxLen : Z) :
  Forall (fun chunk => chunk <> []) (Uploader.chunkText text maxLen) /\
  (Uploader.chunkText text maxLen = [] <->
   Forall (fun c => c = Uploader.newline) text).
Proof.
  split; [apply chunkLoop_nonEmpty|].
  unfold Uploader.chunkText. rewrite chunkLoop_nil.
  unfold Uploader.splitParagraphs. rewrite splitFrom_empty. simpl. tauto.
Qed.

(** X16.  The size of a chunk.  A chunk that holds a line feed is at most
    [maxLen + 1] long (the separator is not counted when a paragraph is
    added); a chunk without a line feed is a single paragraph and can have
    any length: a non-empty text without line feeds comes back as one chunk,
    whatever [maxLen]. *)
Theorem chunkText_size (text : jsstring) (maxLen : Z) :
  Forall (Uploader.sized maxLen) (Uploader.chunkText text maxLen) /\
  (Uploader.lineFree text -> text <> [] ->
   Uploader.chunkText text maxLen = [text]).
Proof.
  split.
  - apply chunkLoop_sized; [right; constructor|].
    apply splitParagraphs_lineFree.
  - intros Hfree Hne. unfold Uploader.chunkText, Uploader.splitParagraphs.
    rewrite splitFrom_lineFree_one by exact Hfree. simpl.
    destruct (Z.of_nat (length text) >? maxLen); simpl;
      now destruct text.
Qed.

Lemma chunkText_size_witness :
  Uploader.chunkText (ofString "0123456789") 3 = [ofString "0123456789"].
Proof.
  destruct (chunkText_size (ofString "0123456789") 3) as [_ H].
  apply H; [|discriminate].
  repeat constructor; discriminate.
Defined.

(** X17.  Chunking loses nothing and reorders nothing: line feeds aside,
    the chunks put end to end spell the text. *)
Theorem chunkText_content (text : jsstring) (maxLen : Z) :
  Uploader.withoutNewlines (concat (Uploader.chunkText text maxLen))
  = Uploader.withoutNewlines text.
Proof.
  unfold Uploader.chunkText. rewrite chunkLoop_content. simpl.
  unfold Uploader.splitParagraphs. now rewrite splitFrom_content.
Qed.

(** X18.  No paragraph is cut: the non-empty paragraphs of the chunks, taken
    chunk after chunk, are the non-empty paragraphs of the text, in the
    same order. *)
Theorem chunkText_paragraphs (text : jsstring) (maxLen : Z) :
  concat (List.map Uploader.paragraphsOf (Uploader.chunkText text maxLen))
  = Uploader.paragraphsOf text.
Proof.
  unfold Uploader.chunkText.
  rewrite chunkLoop_paragraphs by apply splitParagraphs_lineFree.
  reflexivity.
Qed.

Section Indexed.

Lemma orElse_nonEmpty s fallback :
  fallback <> [] -> Uploader.orElse s fallback <> [].
Proof. intros H. destruct s as [[|c s]|]; simpl; auto; discriminate. Qed.

End Indexed.

(** X19.  What the indexer stores, and what the chat endpoint makes of it.
    [processPage] stores one payload per chunk of the page, numbered
    0, 1, ... in [chunk_index], each with the number of chunks of the page
    and the page number.  When the clock never shows the year 0, every
    stored payload has a non-empty text, a non-empty filename and a year
    that is not 0; read back from a search response it is therefore never
    dropped for lack of text, it counts as dated (the temporal filter keeps
    it exactly when its year is within the tolerance), and its source
    always has a link. *)
Theorem processPage_stored
    (clock : nat -> Uploader.Date) (page : Uploader.Page)
    (name path : option jsstring) (docYear : option Z) :
  let stored := fst (Uploader.processPage clock page name path docYear) in
  let chunks :=
    Uploader.chunkText (Uploader.page_text page) Uploader.MAX_CHUNK_SIZE in
  snd (Uploader.processPage clock page name path docYear)
  = length stored /\
  List.map Uploader.text stored = chunks /\
  List.map Uploader.chunk_index stored = seq 0 (length chunks) /\
  Forall (fun p => Uploader.total_chunks p = length chunks /\
                   Uploader.page_number p = Uploader.page_page_number page)
    stored /\
  ((forall i, Uploader.getFullYear (clock i) <> 0) ->
   forall p score,
     In p stored ->
     exists chunk,
       Chat.chunkOfPoint (Uploader.asPoint p score) = Some chunk /\
       text chunk = Uploader.text p /\ text chunk <> [] /\
       dated chunk = true /\
       (forall numberToString,
           is_Some (Chat.pdfUrlOf numberToString chunk)) /\
       (forall target tolerance,
           keepChunk target tolerance chunk = true <->
           Z.abs (Uploader.year p - target) <= tolerance)).
Proof.
  cbv zeta. unfold Uploader.processPage. cbv zeta. simpl fst. simpl snd.
  set (chunks := Uploader.chunkText (Uploader.page_text page)
                   Uploader.MAX_CHUNK_SIZE).
  set (mk := Uploader.payloadOf clock page name path docYear
               (length chunks)).
  assert (Hnonempty : Forall (fun c => c <> []) chunks)
    by apply chunkLoop_nonEmpty.
  assert (Hgen : forall (l : list jsstring) (f : nat -> jsstring -> Uploader.StoredPayload) n,
             (forall i c, Uploader.text (f i c) = c) ->
             (forall i c, Uploader.chunk_index (f i c) = (n + i)%nat) ->
             List.map Uploader.text (imap f l) = l /\
             List.map Uploader.chunk_index (imap f l) = seq n (length l)).
  { induction l as [|c l IH]; intros f n Ht Hi; [split; reflexivity|].
    simpl. rewrite Ht, Hi, Nat.add_0_r.
    destruct (IH (f ∘ S) (S n)) as [IH1 IH2].
    - intros i c'. apply Ht.
    - intros i c'. simpl. rewrite Hi. lia.
    - now rewrite IH1, IH2. }
  destruct (Hgen chunks mk 0%nat) as [Htext Hidx]; try reflexivity.
  split; [now rewrite length_imap|]. split; [exact Htext|].
  split; [exact Hidx|]. split.
  - apply List.Forall_forall. intros p Hp.
    apply list_elem_of_In, elem_of_lookup_imap in Hp as (i & c & -> & _).
    split; reflexivity.
  - intros Hclock p score Hp.
    apply list_elem_of_In, elem_of_lookup_imap in Hp as (i & c & -> & Hc).
    assert (Hcne : c <> []).
    { apply (proj1 (List.Forall_forall _ _) Hnonempty).
      apply list_elem_of_In, list_elem_of_lookup. eauto. }
    assert (Hyear : Uploader.year (mk i c) <> 0).
    { unfold mk, Uploader.payloadOf. simpl.
      destruct (truthy docYear) eqn:Ey; [|apply Hclock].
      apply truthy_true in Ey as (n & -> & Hn). exact Hn. }
    assert (Hname : Uploader.filename (mk i c) <> [])
      by (apply orElse_nonEmpty; discriminate).
    assert (Htextp : Uploader.text (mk i c) = c) by reflexivity.
    destruct (mk i c) as [t f fp y pn ci tc ts uts].
    cbn [Uploader.text Uploader.year Uploader.filename] in *. subst t.
    destruct c as [|ch c]; [contradiction|].
    destruct f as [|fh f]; [contradiction|].
    assert (Hdated : negb (y =? 0) = true)
      by now apply negb_true_iff, Z.eqb_neq.
    unfold Chat.chunkOfPoint, Uploader.asPoint. simpl.
    eexists. split; [reflexivity|]. simpl.
    split; [reflexivity|]. split; [discriminate|].
    split; [exact Hdated|]. split.
    + intros numberToString. unfold Chat.pdfUrlOf. simpl.
      rewrite Hdated. simpl. eauto.
    + intros target tolerance. unfold keepChunk. simpl.
      rewrite Hdated. simpl. apply Z.leb_le.
Qed.

Lemma processPage_stored_witness :
  exists chunk,
    Chat.chunkOfPoint
      (Uploader.asPoint
         (Uploader.payloadOf (fun _ => Uploader.mkDate 2025 [] 0)
            (Uploader.mkPage (ofString "abc") 1) None None None 1 0
            (ofString "abc"))
         1%Q) = Some chunk /\
    dated chunk = true.
Proof.
  destruct (processPage_stored (fun _ => Uploader.mkDate 2025 [] 0)
              (Uploader.mkPage (ofString "abc") 1) None None None)
    as (_ & _ & _ & _ & H).
  destruct (H (fun _ => ltac:(discriminate))
              (Uploader.payloadOf (fun _ => Uploader.mkDate 2025 [] 0)
                 (Uploader.mkPage (ofString "abc") 1) None None None 1 0
                 (ofString "abc")) 1%Q)
    as (chunk & Hc & _ & _ & Hd & _).
  - left. reflexivity.
  - exists chunk. split; [exact Hc | exact Hd].
Defined.

(** ** Request validation and document years *)

Section Requests.

Import Json.

Lemma validatePage_valid page :
  UploadRequest.validatePage page = Some None <-> UploadRequest.wellFormed page.
Proof.
  unfold UploadRequest.validatePage, UploadRequest.wellFormed. split.
  - destruct page as [| | | | | |fields]; simpl; try discriminate.
    destruct (fields !! "text") as [[| | | |s| |]|] eqn:Et; simpl;
      rewrite ?orb_true_r; try discriminate.
    destruct s as [|c s]; simpl; [discriminate|].
    destruct (fields !! "page_number") as [[| | |q| | |]|] eqn:En; simpl;
      rewrite ?orb_true_r; try discriminate.
    destruct (Qeq_bool q 0) eqn:Eq; simpl; [discriminate|]. intros _.
    exists fields, (c :: s), q. split; [reflexivity|].
    split; [exact Et|]. split; [discriminate|]. split; [exact En|].
    intros H. apply Qeq_bool_iff in H. congruence.
  - intros (fields & s & q & -> & Ht & Hs & Hn & Hq). simpl.
    rewrite Ht, Hn. simpl. destruct s as [|c s]; [contradiction|]. simpl.
    destruct (Qeq_bool q 0) eqn:Eq; [|reflexivity].
    apply Qeq_bool_iff in Eq. contradiction.
Qed.

Lemma validatePage_throws page :
  UploadRequest.validatePage page = None <-> page = JNull \/ page = JUndefined.
Proof.
  unfold UploadRequest.validatePage. split.
  - destruct page as [| | | | | |fields]; simpl; auto; try discriminate.
    destruct (negb (toBoolean (default JUndefined (fields !! "text")))
              || negb (isString (default JUndefined (fields !! "text"))));
      [discriminate|].
    destruct (negb (toBoolean (default JUndefined (fields !! "page_number")))
              || negb (isNumber
                         (default JUndefined (fields !! "page_number"))));
      discriminate.
  - intros [-> | ->]; reflexivity.
Qed.

Lemma validatePages_valid items :
  UploadRequest.validatePages items = Some None <->
  Forall UploadRequest.wellFormed items.
Proof.
  induction items as [|page rest IH]; simpl.
  - split; auto.
  - rewrite List.Forall_cons_iff, <- IH, <- validatePage_valid.
    destruct (UploadRequest.validatePage page) as [[e|]|]; split;
      try tauto; try discriminate; intros [H _]; discriminate.
Qed.

Lemma validatePages_throws items :
  UploadRequest.validatePages items = None <->
  exists good bad rest,
    items = good ++ bad :: rest /\ Forall UploadRequest.wellFormed good /\
    (bad = JNull \/ bad = JUndefined).
Proof.
  induction items as [|page rest IH]; simpl.
  - split; [discriminate|]. intros (good & bad & r & H & _).
    destruct good; discriminate.
  - split.
    + destruct (UploadRequest.validatePage page) as [[e|]|] eqn:Ep.
      * discriminate.
      * intros H. apply IH in H as (good & bad & r & -> & Hg & Hb).
        exists (page :: good), bad, r. split; [reflexivity|].
        split; [|exact Hb]. constructor; [|exact Hg].
        now apply validatePage_valid.
      * intros _. exists [], page, rest. split; [reflexivity|].
        split; [constructor|]. now apply validatePage_throws.
    + intros (good & bad & r & H & Hg & Hb).
      destruct good as [|g good]; simpl in H; injection H as -> ->.
      * apply validatePage_throws in Hb. now rewrite Hb.
      * inversion Hg as [|? ? Hg1 Hg2]; subst.
        apply validatePage_valid in Hg1. rewrite Hg1.
        apply IH. eauto 6.
Qed.

Lemma trimStart_spec s :
  exists pre,
    s = pre ++ ChatRequest.trimStart s /\ forallb isSpace pre = true /\
    match ChatRequest.trimStart s with
    | c :: _ => isSpace c = false
    | [] => True
    end.
Proof.
  induction s as [|c s (pre & Hs & Hpre & Hhead)]; simpl.
  - now exists [].
  - destruct (isSpace c) eqn:Ec.
    + exists (c :: pre). simpl. rewrite Ec, Hpre. now rewrite <- Hs.
    + exists []. simpl. now rewrite Ec.
Qed.

Lemma forallb_rev {A} (p : A -> bool) l :
  forallb p (rev l) = forallb p l.
Proof.
  induction l as [|a l IH]; [reflexivity|]. simpl.
  rewrite forallb_app, IH. simpl. rewrite andb_true_r. apply andb_comm.
Qed.

Lemma trimEnd_spec s :
  exists post,
    s = ChatRequest.trimEnd s ++ post /\ forallb isSpace post = true /\
    (forall front c, ChatRequest.trimEnd s = front ++ [c] -> isSpace c = false).
Proof.
  unfold ChatRequest.trimEnd.
  destruct (trimStart_spec (rev s)) as (pre & Hs & Hpre & Hhead).
  exists (rev pre). split; [|split].
  - rewrite <- rev_app_distr, <- Hs. symmetry. apply rev_involutive.
  - now rewrite forallb_rev.
  - intros front c E. apply (f_equal (@rev _)) in E.
    rewrite rev_involutive, rev_app_distr in E. simpl in E.
    now rewrite E in Hhead.
Qed.

Lemma trimEnd_head c s :
  isSpace c = false ->
  exists rest, ChatRequest.trimEnd (c :: s) = c :: rest.
Proof.
  intros Hc. destruct (trimEnd_spec (c :: s)) as (post & Hs & Hpost & _).
  destruct (ChatRequest.trimEnd (c :: s)) as [|c' rest].
  - simpl in Hs. subst post. simpl in Hpost. now rewrite Hc in Hpost.
  - injection Hs as <- _. eauto.
Qed.

Lemma trim_spec s :
  exists pre post,
    s = pre ++ ChatRequest.trim s ++ post /\
    forallb isSpace pre = true /\ forallb isSpace post = true /\
    (forall c rest, ChatRequest.trim s = c :: rest -> isSpace c = false) /\
    (forall front c, ChatRequest.trim s = front ++ [c] -> isSpace c = false).
Proof.
  unfold ChatRequest.trim.
  destruct (trimStart_spec s) as (pre & Hs & Hpre & Hhead).
  destruct (trimEnd_spec (ChatRequest.trimStart s))
    as (post & Ht & Hpost & Hlast).
  exists pre, post. split; [now rewrite <- Ht|].
  split; [exact Hpre|]. split; [exact Hpost|]. split; [|exact Hlast].
  intros c rest E.
  destruct (ChatRequest.trimStart s) as [|c0 s0]; [discriminate|].
  destruct (trimEnd_head c0 s0 Hhead) as (rest' & E').
  rewrite E' in E. now injection E as <- _.
Qed.

Lemma digitVal_range c : isDigit c = true -> 0 <= digitVal c <= 9.
Proof.
  unfold isDigit, digitVal. intros H. apply andb_prop in H as [H1 H2].
  apply N.leb_le in H1, H2. lia.
Qed.

Lemma parseDigits_four d :
  length d = 4%nat -> forallb isDigit d = true ->
  0 <= parseDigits 0 d <= 9999.
Proof.
  destruct d as [|d1 [|d2 [|d3 [|d4 [|? ?]]]]]; try discriminate.
  intros _ H. simpl in H. rewrite !andb_true_iff in H.
  destruct H as (H1 & H2 & H3 & H4 & _). simpl. rewrite H1, H2, H3, H4.
  apply digitVal_range in H1, H2, H3, H4. lia.
Qed.

Lemma isYearPart_inv part :
  Documents.isYearPart part = true ->
  length part = 4%nat /\ forallb isDigit part = true.
Proof.
  unfold Documents.isYearPart, fourDigits, matchAt.
  destruct (matchTimes 4 isDigit part) as [[|? ?]|] eqn:E; try discriminate.
  intros _. destruct (matchTimes_inv _ _ _ _ E) as (d & -> & Hlen & Hd).
  now rewrite app_nil_r.
Qed.

Lemma yearOfParts_first before part after :
  Forall (fun p => Documents.isYearPart p = false) before ->
  Documents.isYearPart part = true ->
  Documents.yearOfParts (before ++ part :: after)
  = Some (parseDigits 0 part).
Proof.
  intros Hb Hp. induction Hb as [|p before Hp' _ IH]; simpl.
  - rewrite Hp. destruct (isYearPart_inv _ Hp) as [Hlen Hd].
    now apply parseInt_digits.
  - now rewrite Hp'.
Qed.

Lemma yearOfParts_range pathParts year :
  Documents.yearOfParts pathParts = Some year -> 0 <= year <= 9999.
Proof.
  induction pathParts as [|part rest IH]; simpl; [discriminate|].
  destruct (Documents.isYearPart part) eqn:Ep; [|exact IH].
  destruct (isYearPart_inv _ Ep) as [Hlen Hd].
  rewrite (parseInt_digits _ Hlen Hd). intros [= <-].
  now apply parseDigits_four.
Qed.

End Requests.

(** X20.  [validateUploadData] looks at [pages] only.  It accepts exactly
    an array (possibly empty) whose every element is an object with a
    non-empty string [text] and a non-zero number [page_number]; it reports
    missing pages exactly when [pages] is not an array; and it raises a
    [TypeError], instead of returning an error, exactly when the first page
    that is not well formed is [null] (or [undefined]). *)
Theorem validateUploadData_spec (filename filepath year pages : Json.jsvalue) :
  (UploadRequest.validateUploadData filename filepath year pages = Some None
   <-> exists items,
         pages = Json.JArray items /\ Forall UploadRequest.wellFormed items) /\
  (UploadRequest.validateUploadData filename filepath year pages
   = Some (Some UploadRequest.PagesMissing)
   <-> forall items, pages <> Json.JArray items) /\
  (UploadRequest.validateUploadData filename filepath year pages = None
   <-> exists good bad rest,
         pages = Json.JArray (good ++ bad :: rest) /\
         Forall UploadRequest.wellFormed good /\
         (bad = Json.JNull \/ bad = Json.JUndefined)).
Proof.
  assert (Hpages : forall items,
             UploadRequest.validatePages items
             <> Some (Some UploadRequest.PagesMissing)).
  { induction items as [|page rest IH]; simpl; [discriminate|].
    unfold UploadRequest.validatePage.
    destruct (Json.readProperty page "text") as [t|]; [|discriminate].
    destruct (negb (Json.toBoolean t) || negb (Json.isString t));
      [discriminate|].
    destruct (Json.readProperty page "page_number") as [n|]; [|discriminate].
    destruct (negb (Json.toBoolean n) || negb (Json.isNumber n));
      [discriminate | exact IH]. }
  unfold UploadRequest.validateUploadData.
  destruct pages as [| | | | |items|fields];
    try (split; [|split]; split;
         [ discriminate
         | intros (? & ? & _); discriminate
         | intros _ ?; discriminate
         | reflexivity
         | discriminate
         | intros (? & ? & ? & ? & _); discriminate ]).
  split; [|split].
  - rewrite validatePages_valid. split; [eauto|].
    now intros (? & [= <-] & H).
  - split; [intros H; now apply Hpages in H|].
    intros H. now specialize (H items).
  - rewrite validatePages_throws. split.
    + intros (good & bad & rest & -> & H). eauto 6.
    + intros (good & bad & rest & [= ->] & H). eauto 6.
Qed.

(** X21.  The chat endpoint answers 400 exactly when the message is not a
    string or is a string of white space only.  Otherwise the message it
    works with is the one received less the white space at its two ends:
    it is not empty and neither starts nor ends with white space. *)
Theorem validateMessage_spec (message : Json.jsvalue) :
  match ChatRequest.validateMessage message with
  | Some userMessage =>
      exists s pre post,
        message = Json.JString s /\ s = pre ++ userMessage ++ post /\
        forallb isSpace pre = true /\ forallb isSpace post = true /\
        (exists c rest, userMessage = c :: rest /\ isSpace c = false) /\
        (exists front c, userMessage = front ++ [c] /\ isSpace c = false)
  | None =>
      forall s, message = Json.JString s -> forallb isSpace s = true
  end.
Proof.
  unfold ChatRequest.validateMessage.
  destruct message as [| | | |s| |]; simpl; rewrite ?orb_true_r;
    try (intros ? [=]).
  destruct (trim_spec s) as (pre & post & Hs & Hpre & Hpost & Hhead & Hlast).
  destruct s as [|c0 s0]; simpl; [now intros ? [= <-]|].
  remember (c0 :: s0) as s eqn:Es.
  destruct (ChatRequest.trim s) as [|c u] eqn:Et; simpl.
  - intros s' [= <-]. rewrite Hs. simpl.
    now rewrite forallb_app, Hpre, Hpost.
  - exists s, pre, post. repeat (split; [assumption || reflexivity|]).
    split; [eauto|].
    destruct (exists_last (l := c :: u) ltac:(discriminate))
      as (front & c' & E).
    exists front, c'. split; [exact E|]. now apply (Hlast front).
Qed.

(** X22.  The year [listPdfs] gives a document.  Provided the clock does
    not show the year 0, the year is never 0 (so the indexer never falls
    back on its own clock for a listed document); it is between 1 and 9999
    or the current year; and when the first part of the path that is
    exactly four digits is not 0000, the year is the value of that part,
    whatever the file name and the later parts contain. *)
Theorem listed_year (dirs : list jsstring) (name : jsstring) (currentYear : Z) :
  currentYear <> 0 ->
  exists year,
    Documents.yearOf dirs name currentYear = Some year /\
    year <> 0 /\
    (1 <= year <= 9999 \/ year = currentYear) /\
    (forall before part after,
        dirs ++ [name] = before ++ part :: after ->
        Forall (fun p => Documents.isYearPart p = false) before ->
        Documents.isYearPart part = true ->
        parseDigits 0 part <> 0 ->
        year = parseDigits 0 part).
Proof.
  intros Hclock. unfold Documents.yearOf. cbv zeta.
  set (first := Documents.yearOfParts (dirs ++ [name])).
  assert (Hfirst : forall before part after,
             dirs ++ [name] = before ++ part :: after ->
             Forall (fun p => Documents.isYearPart p = false) before ->
             Documents.isYearPart part = true ->
             first = Some (parseDigits 0 part)).
  { intros before part after E Hb Hp. unfold first. rewrite E.
    now apply yearOfParts_first. }
  assert (Hrange : forall y, first = Some y -> 0 <= y <= 9999)
    by apply yearOfParts_range.
  assert (Hname : forall y,
             match firstMatch fourDigits name with
             | Some yearMatch => parseInt yearMatch
             | None => first
             end = Some y -> 0 <= y <= 9999).
  { intros y. destruct (firstMatch fourDigits name) as [m|] eqn:Em;
      [|apply Hrange].
    destruct (firstMatch_fourDigits_inv _ _ Em) as [Hlen Hd].
    rewrite (parseInt_digits _ Hlen Hd). intros [= <-].
    now apply parseDigits_four. }
  destruct (truthy first) eqn:Ef; cbn [negb].
  - rewrite Ef. cbn [negb].
    apply truthy_true in Ef as (y & Ey & Hy). rewrite Ey.
    exists y. split; [reflexivity|]. split; [exact Hy|].
    split; [left; specialize (Hrange y Ey); lia|].
    intros before part after E Hb Hp _.
    specialize (Hfirst _ _ _ E Hb Hp). congruence.
  - assert (Hnone : forall before part after,
               dirs ++ [name] = before ++ part :: after ->
               Forall (fun p => Documents.isYearPart p = false) before ->
               Documents.isYearPart part = true ->
               parseDigits 0 part <> 0 -> False).
    { intros before part after E Hb Hp Hn.
      specialize (Hfirst _ _ _ E Hb Hp). rewrite Hfirst in Ef.
      unfold truthy in Ef. apply negb_false_iff, Z.eqb_eq in Ef.
      contradiction. }
    destruct (truthy
                match firstMatch fourDigits name with
                | Some yearMatch => parseInt yearMatch
                | None => first
                end) eqn:En; cbn [negb].
    + apply truthy_true in En as (y & Ey & Hy). rewrite Ey.
      exists y. split; [reflexivity|]. split; [exact Hy|].
      split; [left; specialize (Hname y Ey); lia|].
      intros. exfalso. eauto.
    + exists currentYear. split; [reflexivity|]. split; [exact Hclock|].
      split; [now right|]. intros. exfalso. eauto.
Qed.

Lemma listed_year_witness :
  exists year,
    Documents.yearOf [ofString "2023"] (ofString "pv-2021-03.pdf") 2026
    = Some year /\ year = 2023.
Proof.
  destruct (listed_year [ofString "2023"] (ofString "pv-2021-03.pdf") 2026
              ltac:(discriminate))
    as (year & E & _ & _ & H).
  exists year. split; [exact E|].
  apply (H [] (ofString "2023") [ofString "pv-2021-03.pdf"]).
  - reflexivity.
  - constructor.
  - reflexivity.
  - discriminate.
Defined.

(** ** Chunks without a year *)

Section Undated.

Lemma weightChunk_undated queryYear temporalWeight chunk :
  dated chunk = false ->
  weightChunk queryYear temporalWeight chunk = scoreAsFinal chunk.
Proof. unfold dated, weightChunk. now intros ->. Qed.

Lemma keepChunk_undated targetYear tolerance chunk :
  dated chunk = false -> keepChunk targetYear tolerance chunk = true.
Proof. unfold dated, keepChunk. now intros ->. Qed.

Lemma sort_scoreAsFinal l :
  ArraySort.sort (byKeyDescending finalScoreKey) (List.map scoreAsFinal l)
  = List.map scoreAsFinal (ArraySort.sort (byKeyDescending scoreKey) l).
Proof.
  symmetry.
  exact (sort_map (byKeyDescending finalScoreKey) scoreAsFinal l).
Qed.

Lemma undated_ranked input query o :
  Forall (fun c => dated c = false) input ->
  chunks (performHybridSearch input query o)
  = (if temporalWeightingApplied (metadata (performHybridSearch input query o))
     then List.map scoreAsFinal else id)
      (ArraySort.sort (byKeyDescending scoreKey) input).
Proof.
  intros Hu.
  destruct (ranked_cases input query o) as (Hc & _ & Hw). cbv zeta in Hc, Hw.
  rewrite Hc, Hw.
  assert (Hf : (if truthy (extractYearFromQuery query) && enableFilteringOf o
                then filterByYear input
                       (default 0 (extractYearFromQuery query))
                       (yearToleranceOf o)
                else input) = input).
  { destruct (truthy (extractYearFromQuery query) && enableFilteringOf o);
      [|reflexivity].
    apply filter_all. revert Hu. apply List.Forall_impl.
    intros c. apply keepChunk_undated. }
  rewrite Hf.
  destruct (truthy (extractYearFromQuery query) && enableWeightingOf o);
    [|reflexivity].
  unfold applyTemporalWeighting.
  rewrite (map_ext_Forall _ scoreAsFinal).
  - apply sort_scoreAsFinal.
  - revert Hu. apply List.Forall_impl. intros c. apply weightChunk_undated.
Qed.

Lemma imap_compose {A B C} (f : nat -> A -> B) (g : nat -> B -> C) l :
  imap g (imap f l) = imap (fun i x => g i (f i x)) l.
Proof.
  revert f g. induction l as [|x l IH]; intros f g; [reflexivity|].
  cbn [imap]. f_equal. apply IH.
Qed.

Lemma chunks_of_texts (P : Chunk -> Prop) (mk : nat -> jsstring -> Qdrant.Point)
    (l : list jsstring) :
  (forall i c, c <> [] ->
     exists chunk,
       Chat.chunkOfPoint (mk i c) = Some chunk /\ text chunk = c /\ P chunk) ->
  Forall (fun c => c <> []) l ->
  List.map text (omap Chat.chunkOfPoint (imap mk l)) = l /\
  Forall P (omap Chat.chunkOfPoint (imap mk l)).
Proof.
  intros Hmk Hl. revert mk Hmk.
  induction Hl as [|c l Hc _ IH]; intros mk Hmk;
    [split; [reflexivity | constructor]|].
  cbn [imap]. rewrite omap_step.
  destruct (Hmk 0%nat c Hc) as (chunk & -> & Ht & HP).
  destruct (IH (mk ∘ S)) as [IH1 IH2].
  - intros i c' Hc'. apply (Hmk (S i) c' Hc').
  - split; [cbn [List.map]; now rewrite Ht, IH1 | now constructor].
Qed.

Lemma legacy_chunks clock body name (scores : nat -> Q) :
  let points :=
    imap (fun i p => LegacyUploader.asPoint p (scores i))
      (LegacyUploader.stored clock body name) in
  List.map text (Chat.chunksOfResult (Some points))
  = Uploader.chunkText body 1000 /\
  Forall (fun c => year c = None /\ page c = None)
    (Chat.chunksOfResult (Some points)).
Proof.
  cbv zeta. unfold LegacyUploader.stored, Chat.chunksOfResult. cbv zeta.
  rewrite imap_compose. apply chunks_of_texts; [|apply chunkLoop_nonEmpty].
  intros i [|ch c] Hc; [contradiction|].
  eexists. split; [reflexivity|]. repeat split.
Qed.

End Undated.

(** X23.  Chunks without a year are ranked by their vector score alone.
    Whatever the query and the settings, the temporal search drops none of
    them and returns them in the order of a plain stable sort by [score],
    descending; when the weighting step ran, each has its score copied
    into [finalScore] and is otherwise unchanged. *)
Theorem undated_ranked_by_score (input : list Chunk) (query : jsstring)
    (o : Options) :
  Forall (fun c => dated c = false) input ->
  chunks (performHybridSearch input query o)
  = (if temporalWeightingApplied (metadata (performHybridSearch input query o))
     then List.map scoreAsFinal else id)
      (ArraySort.sort (byKeyDescending scoreKey) input) /\
  filteredCount (metadata (performHybridSearch input query o)) = length input.
Proof.
  intros Hu. split; [now apply undated_ranked|].
  rewrite <- ranked_length, (undated_ranked input query o Hu).
  destruct (temporalWeightingApplied _); unfold id;
    rewrite ?length_map; symmetry; apply Permutation_length, sort_perm.
Qed.

Lemma undated_ranked_by_score_witness :
  chunks (performHybridSearch
            [plain (5 # 10) None; plain (9 # 10) (Some 0)]
            (ofString "budget 2024") noOptions)
  = List.map scoreAsFinal [plain (9 # 10) (Some 0); plain (5 # 10) None].
Proof.
  apply (undated_ranked_by_score
           [plain (5 # 10) None; plain (9 # 10) (Some 0)]
           (ofString "budget 2024") noOptions).
  constructor; [reflexivity|]. constructor; [reflexivity|]. constructor.
Defined.

(** X24.  What the first uploader indexes has no year.  The chunks the
    chat endpoint reads back from its points are the chunks of the posted
    text, in order and none dropped; each is without a year and without a
    page, so the temporal filter keeps all of them for every target year
    and tolerance, and the search returns them by vector score alone. *)
Theorem legacy_upload_undated (clock : nat -> Uploader.Date)
    (body : jsstring) (name : option jsstring) (scores : nat -> Q) :
  let points :=
    imap (fun i p => LegacyUploader.asPoint p (scores i))
      (LegacyUploader.stored clock body name) in
  let rawChunks := Chat.chunksOfResult (Some points) in
  List.map text rawChunks = Uploader.chunkText body 1000 /\
  Forall (fun c => year c = None /\ page c = None) rawChunks /\
  (forall targetYear tolerance,
      filterByYear rawChunks targetYear tolerance = rawChunks) /\
  (forall query o,
      List.map score (chunks (performHybridSearch rawChunks query o))
      = List.map score
          (ArraySort.sort (byKeyDescending scoreKey) rawChunks)).
Proof.
  cbv zeta. destruct (legacy_chunks clock body name scores) as [Ht Hu].
  cbv zeta in Ht, Hu. split; [exact Ht|]. split; [exact Hu|].
  assert (Hd : Forall (fun c => dated c = false)
                 (Chat.chunksOfResult
                    (Some (imap (fun i p => LegacyUploader.asPoint p (scores i))
                             (LegacyUploader.stored clock body name))))).
  { revert Hu. apply List.Forall_impl. intros c (H & _).
    unfold dated. now rewrite H. }
  split.
  - intros targetYear tolerance. apply filter_all.
    revert Hd. apply List.Forall_impl. intros c. apply keepChunk_undated.
  - intros query o. rewrite (undated_ranked _ query o Hd).
    destruct (temporalWeightingApplied _); [|reflexivity].
    rewrite List.map_map. reflexivity.
Qed.
